(** * TravelTale: a shallow embedding of the trip planner and its properties

    The development follows the layout of the repository:
    - [Js]               the fragment of the JavaScript runtime the code relies on
                         (completions with exceptions, truthiness, string
                         splitting, URI component coding);
    - [URLSearchParams]  the query string of the page address;
    - [Location], [POI]  the records of [types.ts];
    - [OsmService]       [reverseGeocode] and [getPOIs];
    - [GeminiService]    [generateStoryStream];
    - [MapComponent]     [MapClickHandler] and [RoutingMachine];
    - [App]              the state slots of [App.tsx], its effects and
                         [handleGenerateStory].

    Asynchronous code is cut at its [await]s: the part before and the part
    after are separate transitions, and what the awaited service answers is
    an input of the second.  The services (geocoder, Overpass, routing
    widget, text generator) are the environment: their answers arrive as
    events, in any order.

    Strings are sequences of bytes, the UTF-8 encoding of the JavaScript
    string (a string with a lone surrogate has none and is outside the
    model); numbers are kept abstract behind the class [JsNumber]. *)

From Stdlib Require Import String Ascii List ZArith Lia Bool.
From stdpp Require Import base option list strings gmap.

#[local] Open Scope string_scope.
#[local] Open Scope list_scope.
#[local] Set Warnings "-register-all".

(** ** Numbers

    A JavaScript number is an IEEE double.  The code never computes with
    coordinates: it stores them, prints them in template literals and reads
    them back with [parseFloat].  These are the operations of the class. *)

Class JsNumber := {
  number : Type;
  (** [`${x}`] for a number [x] *)
  Number_toString : number → string;
  (** the global [parseFloat], applied to a string *)
  parseFloat : string → number;
}.

(** ** The JavaScript runtime fragment *)

Module Js.

Inductive Error :=
| NetworkError
| TypeError
| URIError
| MkError (message : string).

(** The outcome of evaluating a piece of code: a value or a thrown error. *)
Inductive completion (A : Type) :=
| Normal (a : A)
| Throw (e : Error).
Arguments Normal {A} a.
Arguments Throw {A} e.

#[export] Instance completion_ret : MRet completion := @Normal.
#[export] Instance completion_bind : MBind completion :=
  λ A B f c, match c with Normal a => f a | Throw e => Throw e end.
#[export] Instance completion_fmap : FMap completion :=
  λ A B f c, match c with Normal a => Normal (f a) | Throw e => Throw e end.

(** [try { c } catch (e) { h e }] *)
Definition try_catch {A} (c : completion A) (h : Error → completion A) : completion A :=
  match c with
  | Normal a => Normal a
  | Throw e => h e
  end.

(** Truthiness of a possibly undefined string: [undefined] and [""] are falsy. *)
Definition truthy (o : option string) : bool :=
  match o with
  | Some s => negb (String.eqb s "")
  | None => false
  end.

(** [a || b] on possibly undefined strings. *)
Definition or (a b : option string) : option string :=
  if truthy a then a else b.

(** [a || "literal"]: the result is a string. *)
Definition or_default (a : option string) (d : string) : string :=
  match a with
  | Some s => if String.eqb s "" then d else s
  | None => d
  end.

(** [ToString] applied to a possibly undefined string. *)
Definition ToString (o : option string) : string :=
  match o with
  | Some s => s
  | None => "undefined"
  end.

(** [s.split(sep)] for a one-character separator. *)
Fixpoint split (sep : ascii) (s : string) : list string :=
  match s with
  | EmptyString => [EmptyString]
  | String c s' =>
      if Ascii.eqb c sep then EmptyString :: split sep s'
      else match split sep s' with
           | h :: t => String c h :: t
           | [] => [String c EmptyString]
           end
  end.

(** [l.join(sep)] *)
Definition join (sep : string) (l : list string) : string := String.concat sep l.

(** [l.filter(Boolean)] on an array of possibly undefined strings. *)
Fixpoint filter_Boolean (l : list (option string)) : list string :=
  match l with
  | [] => []
  | Some s :: l' => if String.eqb s "" then filter_Boolean l' else s :: filter_Boolean l'
  | None :: l' => filter_Boolean l'
  end.

(** Whether a character occurs in a string. *)
Fixpoint occurs (c : ascii) (s : string) : bool :=
  match s with
  | EmptyString => false
  | String d s' => Ascii.eqb d c || occurs c s'
  end.

(** *** URI component coding

    [encodeURIComponent] leaves the unreserved characters and escapes every
    other byte of the UTF-8 encoding as [%XX] (upper-case hexadecimal). *)

Definition is_digit (c : ascii) : bool :=
  let n := nat_of_ascii c in (48 <=? n)%nat && (n <=? 57)%nat.
Definition is_upper (c : ascii) : bool :=
  let n := nat_of_ascii c in (65 <=? n)%nat && (n <=? 90)%nat.
Definition is_lower (c : ascii) : bool :=
  let n := nat_of_ascii c in (97 <=? n)%nat && (n <=? 122)%nat.

Definition uriUnescaped (c : ascii) : bool :=
  is_digit c || is_upper c || is_lower c || occurs c "-_.!~*'()".

Definition hex_digit (n : nat) : ascii :=
  if (n <? 10)%nat then ascii_of_nat (48 + n) else ascii_of_nat (55 + n).

Definition hex_value (c : ascii) : option nat :=
  let n := nat_of_ascii c in
  if is_digit c then Some (n - 48)%nat
  else if (65 <=? n)%nat && (n <=? 70)%nat then Some (n - 55)%nat
  else if (97 <=? n)%nat && (n <=? 102)%nat then Some (n - 87)%nat
  else None.

Fixpoint encodeURIComponent (s : string) : string :=
  match s with
  | EmptyString => EmptyString
  | String c s' =>
      if uriUnescaped c then String c (encodeURIComponent s')
      else
        let n := nat_of_ascii c in
        String "%" (String (hex_digit (n / 16)) (String (hex_digit (n mod 16))
          (encodeURIComponent s')))
  end.

(** [decodeURIComponent] replaces each [%XX] by the byte it denotes and
    throws a [URIError] on a [%] that is not followed by two hexadecimal
    digits.  (The runtime also rejects escapes whose bytes are not UTF-8;
    that check is outside this byte-level model.) *)
Fixpoint decodeURIComponent (s : string) : completion string :=
  match s with
  | EmptyString => Normal EmptyString
  | String c s' =>
      if Ascii.eqb c "%" then
        match s' with
        | String h (String l s'') =>
            match hex_value h, hex_value l with
            | Some a, Some b =>
                match decodeURIComponent s'' with
                | Normal r => Normal (String (ascii_of_nat (16 * a + b)) r)
                | Throw e => Throw e
                end
            | _, _ => Throw URIError
            end
        | _ => Throw URIError
        end
      else
        match decodeURIComponent s' with
        | Normal r => Normal (String c r)
        | Throw e => Throw e
        end
  end.

(** [s.startsWith(prefix)] *)
Fixpoint startsWith (s prefix : string) : bool :=
  match prefix, s with
  | EmptyString, _ => true
  | String c prefix', String d s' => Ascii.eqb c d && startsWith s' prefix'
  | String _ _, EmptyString => false
  end.

(** [s.includes(sub)] *)
Fixpoint includes (s sub : string) : bool :=
  startsWith s sub
  || match s with
     | EmptyString => false
     | String _ s' => includes s' sub
     end.

(** *** Values of unknown shape (parsed JSON) *)

Section Values.
Context `{JsNumber}.

Inductive Value :=
| VUndefined
| VNull
| VBool (b : bool)
| VNumber (n : number)
| VString (s : string)
| VArray (l : list Value)
| VObject (fields : gmap string Value).

(** [v.key] for a key that no prototype defines. *)
Definition get (v : Value) (key : string) : completion Value :=
  match v with
  | VUndefined | VNull => Throw TypeError
  | VObject fields => Normal (default VUndefined (fields !! key))
  | _ => Normal VUndefined
  end.

(** [v.split(sep)]: only strings have the method; parsed JSON holds no
    functions, so every other receiver throws. *)
Definition call_split (v : Value) (sep : ascii) : completion (list string) :=
  match v with
  | VString s => Normal (split sep s)
  | _ => Throw TypeError
  end.
End Values.

End Js.

Import Js.

(** ** [URLSearchParams]

    The parameters of a query: a list of name-value pairs, written to and
    read from the query string in the [application/x-www-form-urlencoded]
    format. *)

Module URLSearchParams.

Definition t : Type := list (string * string).

(** [params.get(name)]: the value of the first pair with that name. *)
Fixpoint get (params : t) (name : string) : option string :=
  match params with
  | [] => None
  | (k, v) :: params' => if String.eqb k name then Some v else get params' name
  end.

Fixpoint remove (params : t) (name : string) : t :=
  match params with
  | [] => []
  | (k, v) :: params' =>
      if String.eqb k name then remove params' name else (k, v) :: remove params' name
  end.

(** [params.set(name, value)]: the first pair with that name takes the
    value and the others are removed; without such a pair one is appended. *)
Fixpoint set (params : t) (name value : string) : t :=
  match params with
  | [] => [(name, value)]
  | (k, v) :: params' =>
      if String.eqb k name then (k, value) :: remove params' name
      else (k, v) :: set params' name value
  end.

(** The bytes the serializer leaves as they are. *)
Definition unescaped (c : ascii) : bool :=
  is_digit c || is_upper c || is_lower c || occurs c "*-._".

Fixpoint serialize (s : string) : string :=
  match s with
  | EmptyString => EmptyString
  | String c s' =>
      if Ascii.eqb c " " then String "+" (serialize s')
      else if unescaped c then String c (serialize s')
      else
        let n := nat_of_ascii c in
        String "%" (String (hex_digit (n / 16)) (String (hex_digit (n mod 16))
          (serialize s')))
  end.

(** [params.toString()] *)
Definition toString (params : t) : string :=
  join "&" ((λ kv, serialize kv.1 +:+ String "=" (serialize kv.2)) <$> params).

(** Decoding of a name or a value: [+] is a space, [%XX] is the byte it
    denotes, and a [%] that is not followed by two hexadecimal digits
    stands for itself. *)
Fixpoint decode (s : string) : string :=
  match s with
  | EmptyString => EmptyString
  | String c s' =>
      if Ascii.eqb c "+" then String " " (decode s')
      else if Ascii.eqb c "%" then
        match s' with
        | String h (String l s'') =>
            match hex_value h, hex_value l with
            | Some a, Some b => String (ascii_of_nat (16 * a + b)) (decode s'')
            | _, _ => String c (decode s')
            end
        | _ => String c (decode s')
        end
      else String c (decode s')
  end.

(** The part of a sequence before the first [=] and the part after it. *)
Fixpoint split_pair (s : string) : string * string :=
  match s with
  | EmptyString => (EmptyString, EmptyString)
  | String c s' =>
      if Ascii.eqb c "=" then (EmptyString, s')
      else let '(name, value) := split_pair s' in (String c name, value)
  end.

(** [new URLSearchParams(search)]: a leading [?] is dropped, the string is
    cut at every [&], and empty sequences are skipped. *)
Definition parse (search : string) : t :=
  let query :=
    match search with
    | String "?" query => query
    | _ => search
    end in
  (λ seq, let '(name, value) := split_pair seq in (decode name, decode value))
    <$> filter (λ seq, seq ≠ "") (split "&" query).

End URLSearchParams.

(** ** [types.ts] *)

Module Location.
Section Location.
Context `{JsNumber}.

Record t := mk {
  lat : number;
  lng : number;
  name : string;
}.

End Location.
End Location.

Module POI.
Section POI.
Context `{JsNumber}.

Record t := mk {
  id : number;
  lat : number;
  lng : number;
  name : string;
  type : string;
  website : option string;
  description : option string;
  address : option string;
}.

End POI.
End POI.

Module NominatimResult.
Section NominatimResult.
Context `{JsNumber}.

Record t := mk {
  place_id : number;
  licence : string;
  osm_type : string;
  osm_id : number;
  boundingbox : list string;
  lat : string;
  lon : string;
  display_name : string;
  class_ : string;
  type : string;
  importance : number;
}.

End NominatimResult.
End NominatimResult.

(** [TransportMode = 'car' | 'bike' | 'foot'] *)
Inductive TransportMode := car | bike | foot.

#[export] Instance TransportMode_eq_dec : EqDecision TransportMode.
Proof. solve_decision. Defined.

(** ** [services/osmService.ts] *)

Module OsmService.
Section OsmService.
Context `{JsNumber}.

(** The name [reverseGeocode] falls back to. *)
Definition unknown_place : string := "Lieu inconnu".

(** [reverseGeocode(lat, lng)].  The argument [response] is the outcome of
    the [axios.get] call: the [data] of the response, or the error the
    request was rejected with. *)
Definition reverseGeocode (response : completion Value) : completion string :=
  try_catch
    (data ← response;
     display_name ← get data "display_name";
     parts ← call_split display_name ",";
     mret (default "" (head parts)))
    (λ _, Normal unknown_place).

(** A node of the Overpass answer. *)
Record Element := mkElement {
  el_id : number;
  el_lat : number;
  el_lon : number;
  el_tags : option (gmap string string);
}.

(** The [data] of an Overpass answer; [elements] may be missing. *)
Record OverpassData := mkOverpassData {
  elements : option (list Element);
}.

(** The name given to a node that has neither a name nor a description. *)
Definition unnamed_place : string := "Lieu d'intérêt sans nom".

(** The two statements of the Overpass query of [getPOIs],
    [node["tourism"~"museum|attraction|artwork|viewpoint"]] and
    [node["historic"~"castle|ruins|memorial|monument"]]: the key of a tag and
    the alternatives of the regular expression for its value. *)
Definition tourism_filter : string * list string :=
  ("tourism", ["museum"; "attraction"; "artwork"; "viewpoint"]).

Definition historic_filter : string * list string :=
  ("historic", ["castle"; "ruins"; "memorial"; "monument"]).

Definition query_filters : list (string * list string) :=
  [tourism_filter; historic_filter].

(** The body of the [map] callback of [getPOIs]. *)
Definition toPOI (el : Element) : POI.t :=
  let tags : gmap string string := default ∅ (el_tags el) in
  let address :=
    join ", " (filter_Boolean
      [tags !! "addr:housenumber"; tags !! "addr:street";
       tags !! "addr:postcode"; tags !! "addr:city"]) in
  {| POI.id := el_id el;
     POI.lat := el_lat el;
     POI.lng := el_lon el;
     POI.name := or_default (or (tags !! "name") (tags !! "description")) unnamed_place;
     POI.type := or_default (or (tags !! "tourism") (tags !! "historic")) "poi";
     POI.website := or (tags !! "website") (tags !! "url");
     POI.description :=
       or (or (or (tags !! "description") (tags !! "note")) (tags !! "description:fr"))
          (tags !! "description:en");
     POI.address := if String.eqb address "" then None else Some address |}.

(** The predicate of the final [filter]: [poi.name !== "Lieu d'intérêt sans nom"]. *)
Definition named (poi : POI.t) : Prop :=
  POI.name poi ≠ unnamed_place.

#[export] Instance named_dec (poi : POI.t) : Decision (named poi).
Proof. unfold named. apply _. Defined.

(** [getPOIs(lat, lng, radius)].  [response] is the outcome of the
    [axios.post] call ([None] for a null [data]). *)
Definition getPOIs (response : completion (option OverpassData)) : completion (list POI.t) :=
  try_catch
    (data ← response;
     match data with
     | None => mret []
     | Some d =>
         match elements d with
         | None => mret []
         | Some els => mret (filter named (toPOI <$> els))
         end
     end)
    (λ _, Normal []).

(** [searchLocation(query)].  [response] is the outcome of the [axios.get]
    call: the [data] of the response, or the error of the request. *)
Definition searchLocation (response : completion (list NominatimResult.t))
    : completion (list NominatimResult.t) :=
  try_catch (data ← response; mret data) (λ _, Normal []).

End OsmService.
End OsmService.

(** ** [StoryConfig] *)

Inductive StoryStyle := HISTORICAL | FANTASY | ADVENTURE | CHILDREN | SCIFI.

Definition StoryStyle_value (s : StoryStyle) : string :=
  match s with
  | HISTORICAL => "Historique"
  | FANTASY => "Fantaisie"
  | ADVENTURE => "Aventure"
  | CHILDREN => "Enfant"
  | SCIFI => "Science-Fiction"
  end.

Inductive StoryLanguage := AUTO | FRENCH | ENGLISH | SPANISH | GERMAN.

Definition StoryLanguage_value (l : StoryLanguage) : string :=
  match l with
  | AUTO => "Auto"
  | FRENCH => "Français"
  | ENGLISH => "English"
  | SPANISH => "Español"
  | GERMAN => "Deutsch"
  end.

Record StoryConfig := mkStoryConfig {
  style : StoryStyle;
  language : StoryLanguage;
}.

(** ** [services/geminiService.ts] *)

Module GeminiService.
Section GeminiService.
Context `{JsNumber}.

(** One element of the response stream; [text] may be undefined. *)
Record Chunk := mkChunk { text : option string }.

(** The response of [generateContentStream]: the chunks it yields, then
    either the end of the stream or an error thrown by the iteration. *)
Record Stream := mkStream {
  chunks : list Chunk;
  failure : option Error;
}.

(** What the function does with the service client, in program order. *)
Inductive ClientAction :=
| NewGoogleGenAI (apiKey : string)
| GenerateContentStream (model : string) (contents : string).

Definition missing_key : Error :=
  MkError "API Key is missing. Please set process.env.API_KEY.".

Definition model : string := "gemini-3-flash-preview".

Definition prompt (start end_ : Location.t) (pois : list POI.t) (config : StoryConfig) : string :=
  let poiNames := join ", " (List.map POI.name pois) in
  "
    Tu es un conteur expert.
    Génère une histoire courte et immersive (max 400 mots) basée sur un voyage réel.
    
    PARAMÈTRES:
    - Départ: " +:+ Location.name start +:+ "
    - Arrivée: " +:+ Location.name end_ +:+ "
    - Lieux visités (Points d'intérêts): "
      +:+ or_default (Some poiNames) "quelques lieux mystérieux" +:+ "
    - Style: " +:+ StoryStyle_value (style config) +:+ "
    - Langue: "
      +:+ (if String.eqb (StoryLanguage_value (language config)) "Auto"
           then "Français" else StoryLanguage_value (language config)) +:+ "
    
    INSTRUCTIONS:
    Intègre les points d'intérêts naturellement dans l'histoire.
    Utilise le style demandé pour donner le ton (ex: si Fantastique, transforme le trajet en quête épique).
    Sois créatif mais garde une cohérence géographique.
  ".

(** [generateStoryStream(start, end, pois, config)].

    [API_KEY] is [process.env.API_KEY]; [service] is the outcome of the call
    to [ai.models.generateContentStream].  The result pairs the actions
    performed on the client with the completion of the function. *)
Definition generateStoryStream (API_KEY : option string) (service : completion Stream)
    (start end_ : Location.t) (pois : list POI.t) (config : StoryConfig)
    : list ClientAction * completion Stream :=
  if negb (truthy API_KEY) then ([], Throw missing_key)
  else
    let apiKey := ToString API_KEY in
    ([NewGoogleGenAI apiKey; GenerateContentStream model (prompt start end_ pois config)],
     try_catch service (λ error, Throw error)).

End GeminiService.
End GeminiService.

(** ** [components/MapComponent.tsx] *)

(** The selection mode ['start' | 'end']. *)
Inductive SelectionMode := sel_start | sel_end.

#[export] Instance SelectionMode_eq_dec : EqDecision SelectionMode.
Proof. solve_decision. Defined.

Module MapComponent.
Section MapClickHandler.
Context `{JsNumber}.

(** The props of [MapClickHandler]; [S] is the state the setters act on. *)
Context {S : Type}.
Variable setStart : Location.t → S → S.
Variable setEnd : Location.t → S → S.
Variable selectionMode : SelectionMode.
Variable setSelectionMode : SelectionMode → S → S.

(** The [click] handler.  [response] is the outcome of the request made by
    [reverseGeocode]; the handler is suspended until it arrives and then
    runs on the state [s] of that moment.  [selectionMode] is the prop the
    handler closed over when the click happened. *)
Definition click (lat lng : number) (response : completion Value) (s : S) : completion S :=
  name ← OsmService.reverseGeocode response;
  let newLoc := Location.mk lat lng name in
  match selectionMode with
  | sel_start => mret (setSelectionMode sel_end (setStart newLoc s))
  | sel_end => mret (setEnd newLoc s)
  end.

End MapClickHandler.

Section RoutingMachine.
Context `{JsNumber}.

Record RouteSummary := mkRouteSummary {
  totalDistance : number;
  totalTime : number;
}.

(** A candidate route of a ['routesfound'] notification. *)
Record Route := mkRoute { summary : RouteSummary }.

(** A routing control: the options it was created with and whether it is
    currently attached to the map. *)
Record Control := mkControl {
  waypoints : (number * number) * (number * number);
  profile : string;
  color : string;
  onMap : bool;
}.

(** How [window.L.Routing] behaves when the effect runs. *)
Inductive Engine :=
| Loaded         (* the plugin is there and creates the control *)
| NotLoaded      (* [globalL] or [globalL.Routing] is missing *)
| Throwing.      (* creating the control throws *)

(** The component together with the [routeSummary] slot of [MapComponent]
    that [onRouteFound] writes. *)
Record Machine := mkMachine {
  (** [useState<RouteSummary | null>] of [MapComponent] *)
  routeSummary : option RouteSummary;
  (** [routingControlRef.current]: an index into [controls] *)
  routingControlRef : option nat;
  (** every control created so far, in creation order *)
  controls : list Control;
  (** whether the last run of the effect returned its cleanup function *)
  hasCleanup : bool;
  (** the props of the last render *)
  start : option Location.t;
  end_ : option Location.t;
  transportMode : TransportMode;
  (** history: the control whose notification wrote [routeSummary] last *)
  summaryFrom : option nat;
}.

Definition initial : Machine :=
  mkMachine None None [] false None None car None.

(** The primitive operations of the effect, its cleanup and the
    ['routesfound'] handler. *)
Inductive Op :=
| OnRouteFound (s : option RouteSummary) (from : option nat)
| RemoveControl (c : nat)
| SetRef (r : option nat)
| NewControl (c : Control)
| AddTo (c : nat)
| ConsoleError.

Definition detach (c : Control) : Control :=
  mkControl (waypoints c) (profile c) (color c) false.

Definition attach (c : Control) : Control :=
  mkControl (waypoints c) (profile c) (color c) true.

Definition apply (op : Op) (m : Machine) : Machine :=
  match op with
  | OnRouteFound s from =>
      mkMachine s (routingControlRef m) (controls m) (hasCleanup m)
        (start m) (end_ m) (transportMode m) from
  | RemoveControl c =>
      mkMachine (routeSummary m) (routingControlRef m) (alter detach c (controls m))
        (hasCleanup m) (start m) (end_ m) (transportMode m) (summaryFrom m)
  | SetRef r =>
      mkMachine (routeSummary m) r (controls m) (hasCleanup m)
        (start m) (end_ m) (transportMode m) (summaryFrom m)
  | NewControl c =>
      mkMachine (routeSummary m) (routingControlRef m) (controls m ++ [c])
        (hasCleanup m) (start m) (end_ m) (transportMode m) (summaryFrom m)
  | AddTo c =>
      mkMachine (routeSummary m) (routingControlRef m) (alter attach c (controls m))
        (hasCleanup m) (start m) (end_ m) (transportMode m) (summaryFrom m)
  | ConsoleError => m
  end.

Definition perform (ops : list Op) (m : Machine) : Machine :=
  fold_left (λ m op, apply op m) ops m.

(** The OSRM profile of a transport mode. *)
Definition profile_of (mode : TransportMode) : string :=
  let profile := "driving" in
  let profile := if decide (mode = bike) then "cycling" else profile in
  let profile := if decide (mode = foot) then "walking" else profile in
  profile.

Definition color_of (mode : TransportMode) : string :=
  if decide (mode = foot) then "#10b981"
  else if decide (mode = bike) then "#f59e0b"
  else "#3b82f6".

(** The cleanup function returned by the effect. *)
Definition cleanup (m : Machine) : list Op :=
  match routingControlRef m with
  | Some c => [RemoveControl c]
  | None => []
  end.

(** The body of the effect for the props [start], [end_], [mode], run on
    the machine [m]: its operations in program order, and whether it
    returned the cleanup function.  The map of [useMap] is always there
    inside the map container, so the first test of the effect never
    returns.  [map.removeControl] detaches a control and does nothing to
    one that is already detached. *)
Definition effect (engine : Engine) (start end_ : option Location.t) (mode : TransportMode)
    (m : Machine) : list Op * bool :=
  let reset := [OnRouteFound None None] in
  let remove_previous :=
    match routingControlRef m with
    | Some c => [RemoveControl c; SetRef None]
    | None => []
    end in
  match start, end_ with
  | Some s, Some e =>
      match engine with
      | NotLoaded => (reset ++ remove_previous ++ [ConsoleError], false)
      | Throwing => (reset ++ remove_previous ++ [ConsoleError], true)
      | Loaded =>
          let control :=
            mkControl ((Location.lat s, Location.lng s), (Location.lat e, Location.lng e))
              (profile_of mode) (color_of mode) false in
          let c := length (controls m) in
          (reset ++ remove_previous ++ [NewControl control; AddTo c; SetRef (Some c)], true)
      end
  | _, _ => (reset ++ remove_previous, true)
  end.

(** The ['routesfound'] handler registered on control [c]. *)
Definition routesfound (c : nat) (routes : option (list Route)) : list Op :=
  match routes with
  | Some (r :: _) => [OnRouteFound (Some (summary r)) (Some c)]
  | _ => []
  end.

Inductive Event :=
(** a render in which a dependency of the effect changed: the cleanup of
    the previous run, then the effect *)
| Render (engine : Engine) (start end_ : option Location.t) (mode : TransportMode)
(** control [c] fires ['routesfound']; only a control that was created
    has the handler *)
| RoutesFound (c : nat) (routes : option (list Route))
(** the component is removed: the cleanup of the last run *)
| Unmount.

Definition with_props (start end_ : option Location.t) (mode : TransportMode)
    (cl : bool) (m : Machine) : Machine :=
  mkMachine (routeSummary m) (routingControlRef m) (controls m) cl
    start end_ mode (summaryFrom m).

(** The operations an event performs on the machine [m]. *)
Definition ops_of (ev : Event) (m : Machine) : list Op :=
  match ev with
  | Render engine s e mode =>
      let before := if hasCleanup m then cleanup m else [] in
      before ++ (effect engine s e mode (perform before m)).1
  | RoutesFound c routes =>
      match controls m !! c with
      | Some _ => routesfound c routes
      | None => []
      end
  | Unmount => if hasCleanup m then cleanup m else []
  end.

Definition step (m : Machine) (ev : Event) : Machine :=
  let m' := perform (ops_of ev m) m in
  match ev with
  | Render engine s e mode =>
      let before := if hasCleanup m then cleanup m else [] in
      with_props s e mode (effect engine s e mode (perform before m)).2 m'
  | RoutesFound _ _ => m'
  | Unmount => with_props (start m) (end_ m) (transportMode m) false m'
  end.

Definition run (evs : list Event) (m : Machine) : Machine :=
  fold_left step evs m.

End RoutingMachine.
Section MapBoundsController.
Context `{JsNumber}.

(** The global [isNaN], applied to a number. *)
Variable isNaN : number → bool.

(** What the effect of [MapBoundsController] asks of the map.  The bounds
    are kept as the points they were extended with. *)
Inductive ViewAction :=
| FitBounds (bounds : list (number * number)) (padding : nat * nat)
| SetView (center : number * number) (zoom : nat).

(** The error of Leaflet's [LatLng] constructor, which refuses a coordinate
    that is not a number. *)
Definition invalid_LatLng (lat lng : number) : Error :=
  MkError ("Invalid LatLng object: (" +:+ Number_toString lat +:+ ", "
           +:+ Number_toString lng +:+ ")").

(** [bounds.extend([lat, lng])]: the pair is made a [LatLng] first. *)
Definition extend (bounds : list (number * number)) (lat lng : number)
    : completion (list (number * number)) :=
  if isNaN lat || isNaN lng then Throw (invalid_LatLng lat lng)
  else Normal (bounds ++ [(lat, lng)]).

(** [bounds.isValid()]: the bounds were extended at least once. *)
Definition isValid (bounds : list (number * number)) : bool :=
  match bounds with
  | [] => false
  | _ :: _ => true
  end.

(** The [forEach] over the POIs, on the variables [bounds] and
    [hasPoints]. *)
Fixpoint extend_pois (pois : list POI.t) (vars : list (number * number) * bool)
    : completion (list (number * number) * bool) :=
  match pois with
  | [] => mret vars
  | poi :: rest =>
      bounds ← extend vars.1 (POI.lat poi) (POI.lng poi);
      extend_pois rest (bounds, true)
  end.

(** The effect of [MapBoundsController] for the props [start], [end_] and
    [pois].  The calls of [bounds.extend] are outside the [try]: what they
    throw, the effect throws.  What [map.fitBounds] throws is caught. *)
Definition boundsEffect (start end_ : option Location.t) (pois : list POI.t)
    : completion (list ViewAction) :=
  let bounds : list (number * number) := [] in
  let hasPoints := false in
  '(bounds, hasPoints) ←
    match start with
    | Some s =>
        bounds ← extend bounds (Location.lat s) (Location.lng s);
        mret (bounds, true)
    | None => mret (bounds, hasPoints)
    end;
  '(bounds, hasPoints) ←
    match end_ with
    | Some e =>
        bounds ← extend bounds (Location.lat e) (Location.lng e);
        mret (bounds, true)
    | None => mret (bounds, hasPoints)
    end;
  '(bounds, hasPoints) ← extend_pois pois (bounds, hasPoints);
  mret
    (if hasPoints && (bool_decide (is_Some start) || bool_decide (is_Some end_)
                      || (0 <? length pois)%nat)
     then
       if (bool_decide (is_Some start) && bool_decide (is_Some end_))
          || (0 <? length pois)%nat
       then
         if isValid bounds then [FitBounds bounds (50, 50)%nat] else []
       else
         match start with
         | Some s => [SetView (Location.lat s, Location.lng s) 13]
         | None => []
         end
     else []).

End MapBoundsController.
End MapComponent.

(** ** [App.tsx] *)

Module App.
Section App.
Context `{JsNumber}.

(** The [useState] slots of [App]. *)
Record State := mkState {
  start : option Location.t;
  end_ : option Location.t;
  pois : list POI.t;
  focusedPoi : option POI.t;
  selectionMode : SelectionMode;
  story : string;
  isGenerating : bool;
  isLoadingPois : bool;
  transportMode : TransportMode;
}.

Definition initial : State :=
  mkState None None [] None sel_start "" false false car.

Definition setStart (l : Location.t) (s : State) : State :=
  mkState (Some l) (end_ s) (pois s) (focusedPoi s) (selectionMode s) (story s)
    (isGenerating s) (isLoadingPois s) (transportMode s).

Definition setEnd (l : Location.t) (s : State) : State :=
  mkState (start s) (Some l) (pois s) (focusedPoi s) (selectionMode s) (story s)
    (isGenerating s) (isLoadingPois s) (transportMode s).

Definition setPois (l : list POI.t) (s : State) : State :=
  mkState (start s) (end_ s) l (focusedPoi s) (selectionMode s) (story s)
    (isGenerating s) (isLoadingPois s) (transportMode s).

Definition setFocusedPoi (p : option POI.t) (s : State) : State :=
  mkState (start s) (end_ s) (pois s) p (selectionMode s) (story s)
    (isGenerating s) (isLoadingPois s) (transportMode s).

Definition setSelectionMode (m : SelectionMode) (s : State) : State :=
  mkState (start s) (end_ s) (pois s) (focusedPoi s) m (story s)
    (isGenerating s) (isLoadingPois s) (transportMode s).

Definition setStory (t : string) (s : State) : State :=
  mkState (start s) (end_ s) (pois s) (focusedPoi s) (selectionMode s) t
    (isGenerating s) (isLoadingPois s) (transportMode s).

Definition setIsGenerating (b : bool) (s : State) : State :=
  mkState (start s) (end_ s) (pois s) (focusedPoi s) (selectionMode s) (story s)
    b (isLoadingPois s) (transportMode s).

Definition setIsLoadingPois (b : bool) (s : State) : State :=
  mkState (start s) (end_ s) (pois s) (focusedPoi s) (selectionMode s) (story s)
    (isGenerating s) b (transportMode s).

Definition setTransportMode (m : TransportMode) (s : State) : State :=
  mkState (start s) (end_ s) (pois s) (focusedPoi s) (selectionMode s) (story s)
    (isGenerating s) (isLoadingPois s) m.

(** *** The shareable link

    The address of the page is represented by its query string,
    [window.location.search]. *)

Definition TransportMode_value (m : TransportMode) : string :=
  match m with
  | car => "car"
  | bike => "bike"
  | foot => "foot"
  end.

(** [['car', 'bike', 'foot'].includes(modeParam)], and the mode it denotes. *)
Definition TransportMode_of (modeParam : string) : option TransportMode :=
  if String.eqb modeParam "car" then Some car
  else if String.eqb modeParam "bike" then Some bike
  else if String.eqb modeParam "foot" then Some foot
  else None.

(** [`${l.lat}|${l.lng}|${encodeURIComponent(l.name)}`] *)
Definition locationParam (l : Location.t) : string :=
  Number_toString (Location.lat l) +:+ "|" +:+ Number_toString (Location.lng l)
    +:+ "|" +:+ encodeURIComponent (Location.name l).

(** The parameters the effect that updates the address builds. *)
Definition updateURL_params (s : State) : URLSearchParams.t :=
  let params : URLSearchParams.t := [] in
  let params :=
    match start s with
    | Some l => URLSearchParams.set params "start" (locationParam l)
    | None => params
    end in
  let params :=
    match end_ s with
    | Some l => URLSearchParams.set params "end" (locationParam l)
    | None => params
    end in
  let params :=
    if truthy (Some (TransportMode_value (transportMode s)))
    then URLSearchParams.set params "mode" (TransportMode_value (transportMode s))
    else params in
  params.

(** The effect that updates the address: [window.location.search] after
    [replaceState] with [`${pathname}?${params.toString()}`].  The query
    holds no character that the address parser would change. *)
Definition updateURL (s : State) : string :=
  "?" +:+ URLSearchParams.toString (updateURL_params s).

(** [const [lat, lng, name] = param.split('|')] and the object built from
    the three fields; a missing field is [undefined]. *)
Definition parseLocation (param : string) : completion Location.t :=
  let parts := split "|" param in
  let lat := parts !! 0%nat in
  let lng := parts !! 1%nat in
  let name := parts !! 2%nat in
  name' ← decodeURIComponent (ToString name);
  mret (Location.mk (parseFloat (ToString lat)) (parseFloat (ToString lng)) name').

(** The effect that loads the state from the address on mount. *)
Definition loadFromURL (search : string) (s : State) : State :=
  let params := URLSearchParams.parse search in
  let startParam := URLSearchParams.get params "start" in
  let endParam := URLSearchParams.get params "end" in
  let modeParam := URLSearchParams.get params "mode" in
  let s :=
    if truthy startParam then
      match parseLocation (ToString startParam) with
      | Normal l => setStart l s
      | Throw _ => s
      end
    else s in
  let s :=
    if truthy endParam then
      match parseLocation (ToString endParam) with
      | Normal l => setEnd l s
      | Throw _ => s
      end
    else s in
  let s :=
    if truthy modeParam then
      match TransportMode_of (ToString modeParam) with
      | Some m => setTransportMode m s
      | None => s
      end
    else s in
  s.

(** *** Story generation *)

Definition apology : string :=
  "Désolé, une erreur est survenue lors de la création de l'histoire. Veuillez vérifier votre clé API.".

(** What [handleGenerateStory] does, in program order. *)
Inductive Op :=
| SetIsGenerating (b : bool)
| SetStory (t : string)
| Client (a : GeminiService.ClientAction)
(** the stream delivers a chunk to the [for await] loop *)
| Receive (c : GeminiService.Chunk)
(** the function is suspended; the interface is rendered *)
| Await.

Definition apply (op : Op) (s : State) : State :=
  match op with
  | SetIsGenerating b => setIsGenerating b s
  | SetStory t => setStory t s
  | Client _ | Receive _ | Await => s
  end.

Definition perform (ops : list Op) (s : State) : State :=
  fold_left (λ s op, apply op s) ops s.

(** The [for await] loop over the chunks still to come, with the local
    variable [fullStory]; afterwards the [catch] and [finally] blocks. *)
Fixpoint consume (chunks : list GeminiService.Chunk) (failure : option Error)
    (fullStory : string) : list Op :=
  match chunks with
  | [] =>
      match failure with
      | None => [SetIsGenerating false]
      | Some _ => [SetStory apology; SetIsGenerating false]
      end
  | chunk :: rest =>
      if truthy (GeminiService.text chunk) then
        let fullStory := fullStory +:+ ToString (GeminiService.text chunk) in
        [Receive chunk; SetStory fullStory; Await] ++ consume rest failure fullStory
      else
        [Receive chunk; Await] ++ consume rest failure fullStory
  end.

(** [handleGenerateStory(config)] called in state [s]. *)
Definition handleGenerateStory (API_KEY : option string)
    (service : completion GeminiService.Stream) (config : StoryConfig) (s : State) : list Op :=
  match start s, end_ s with
  | Some st, Some en =>
      let '(actions, response) :=
        GeminiService.generateStoryStream API_KEY service st en (pois s) config in
      [SetIsGenerating true; SetStory ""] ++ List.map Client actions ++ [Await] ++
      match response with
      | Normal responseStream =>
          consume (GeminiService.chunks responseStream)
            (GeminiService.failure responseStream) ""
      | Throw _ => [SetStory apology; SetIsGenerating false]
      end
  | _, _ => []
  end.

(** *** Clicks and the POI effect

    The application with its suspended asynchronous calls. *)

Record World := mkWorld {
  state : State;
  (** click handlers waiting for [reverseGeocode]: the [selectionMode]
      each closed over and the clicked position, oldest first *)
  pendingClicks : list (SelectionMode * number * number);
  (** runs of [fetchPois] waiting for [getPOIs]: the [end] each was
      started for, oldest first *)
  pendingPois : list Location.t;
  (** history: the [end] of the run of [fetchPois] that wrote [pois] last *)
  poisFor : option Location.t;
}.

(** The first part of [fetchPois], run when [end] has changed. *)
Definition fetchPois_start (w : World) : World :=
  match end_ (state w) with
  | Some e =>
      mkWorld (setIsLoadingPois true (state w)) (pendingClicks w)
        (pendingPois w ++ [e]) (poisFor w)
  | None =>
      mkWorld (setPois [] (state w)) (pendingClicks w) (pendingPois w) None
  end.

(** The rest of a run of [fetchPois] started for [e], once [getPOIs] has
    settled; [response] is the outcome of its request. *)
Definition fetchPois_resume (e : Location.t)
    (response : completion (option OsmService.OverpassData)) (w : World) : World :=
  let s :=
    match OsmService.getPOIs response with
    | Normal newPois => setPois newPois (state w)
    | Throw _ => setPois [] (state w)
    end in
  mkWorld (setIsLoadingPois false s) (pendingClicks w) (pendingPois w) (Some e).

(** The state after mounting the application at an address with the
    query string [params]. *)
Definition mount (params : string) : World :=
  let w := fetchPois_start (mkWorld initial [] [] None) in
  let w := mkWorld (loadFromURL params (state w)) (pendingClicks w) (pendingPois w) (poisFor w) in
  match end_ (state w) with
  | Some _ => fetchPois_start w
  | None => w
  end.

Inductive Event :=
(** a click on the map *)
| MapClick (lat lng : number)
(** the request of the [i]-th waiting click handler settles *)
| GeocodeSettled (i : nat) (response : completion Value)
(** [handleSearch] of the sidebar found a place *)
| SearchFound (type : SelectionMode) (l : Location.t)
(** a click in one of the two location inputs of the sidebar *)
| SelectInput (m : SelectionMode)
(** a click on a transport mode button *)
| SelectTransport (m : TransportMode)
(** the request of the [i]-th waiting run of [fetchPois] settles *)
| PoisSettled (i : nat) (response : completion (option OsmService.OverpassData)).

Definition with_state (s : State) (w : World) : World :=
  mkWorld s (pendingClicks w) (pendingPois w) (poisFor w).

Definition step (w : World) (ev : Event) : World :=
  match ev with
  | MapClick lat lng =>
      mkWorld (state w) (pendingClicks w ++ [(selectionMode (state w), lat, lng)])
        (pendingPois w) (poisFor w)
  | GeocodeSettled i response =>
      match pendingClicks w !! i with
      | Some (mode, lat, lng) =>
          let w := mkWorld (state w) (delete i (pendingClicks w)) (pendingPois w) (poisFor w) in
          match MapComponent.click setStart setEnd mode setSelectionMode
                  lat lng response (state w) with
          | Normal s =>
              match mode with
              | sel_start => with_state s w
              | sel_end => fetchPois_start (with_state s w)
              end
          | Throw _ => w
          end
      | None => w
      end
  | SearchFound sel_start l => with_state (setStart l (state w)) w
  | SearchFound sel_end l => fetchPois_start (with_state (setEnd l (state w)) w)
  | SelectInput m => with_state (setSelectionMode m (state w)) w
  | SelectTransport m => with_state (setTransportMode m (state w)) w
  | PoisSettled i response =>
      match pendingPois w !! i with
      | Some e =>
          fetchPois_resume e response
            (mkWorld (state w) (pendingClicks w) (delete i (pendingPois w)) (poisFor w))
      | None => w
      end
  end.

Definition run (evs : list Event) (w : World) : World :=
  fold_left step evs w.

End App.
End App.

(** ** [components/Sidebar.tsx] *)

Module Sidebar.
Section handleSearch.
Context `{JsNumber}.

(** The props of [Sidebar] that [handleSearch] uses; [S] is the state the
    setters act on. *)
Context {S : Type}.
Variable setStart : Location.t → S → S.
Variable setEnd : Location.t → S → S.

(** The location made of the first result. *)
Definition best_location (best : NominatimResult.t) : Location.t :=
  Location.mk (parseFloat (NominatimResult.lat best))
    (parseFloat (NominatimResult.lon best))
    (default "" (head (split "," (NominatimResult.display_name best)))).

(** [handleSearch(query, type)].  [response] is the outcome of the request
    [searchLocation] makes; the result pairs the queries sent to the
    geocoder with the completion of the function on the state [s]. *)
Definition handleSearch (query : string) (type : SelectionMode)
    (response : completion (list NominatimResult.t)) (s : S)
    : list string * completion S :=
  if negb (truthy (Some query)) then ([], Normal s)
  else
    ([query],
     results ← OsmService.searchLocation response;
     match results with
     | best :: _ =>
         let loc := best_location best in
         match type with
         | sel_start => mret (setStart loc s)
         | sel_end => mret (setEnd loc s)
         end
     | [] => mret s
     end).

End handleSearch.

Section Speech.
Context `{JsNumber}.

(** [String.prototype.toLowerCase], a function of the platform. *)
Variable toLowerCase : string → string.

(** The [name] and [lang] of a [SpeechSynthesisVoice]. *)
Record Voice := mkVoice {
  voice_name : string;
  voice_lang : string;
}.

Definition getLangCode (lang : StoryLanguage) : string :=
  match lang with
  | ENGLISH => "en-US"
  | SPANISH => "es-ES"
  | GERMAN => "de-DE"
  | FRENCH | AUTO => "fr-FR"
  end.

Definition preferredKeywords : list string :=
  ["female"; "google"; "samantha"; "zira"; "amelie"; "sophie"; "natural"].

(** The utterance handed to the speech synthesis; pitch and rate are the
    literals of the source. *)
Record Utterance := mkUtterance {
  utterance_text : string;
  utterance_lang : string;
  utterance_voice : option Voice;
  utterance_pitch : string;
  utterance_rate : string;
}.

Inductive SpeechOp :=
| Cancel
| Speak (u : Utterance).

(** [toggleSpeech()] with the state [isSpeaking], the props [story] and the
    slots [config] and [voices]: what it asks of the speech synthesis and
    the new [isSpeaking]. *)
Definition toggleSpeech (isSpeaking : bool) (story : string) (config : StoryConfig)
    (voices : list Voice) : list SpeechOp * bool :=
  if isSpeaking then ([Cancel], false)
  else if negb (truthy (Some story)) then ([], isSpeaking)
  else
    let langCode := getLangCode (language config) in
    let langVoices :=
      filter (λ v, startsWith (voice_lang v) (default "" (head (split "-" langCode))) = true)
        voices in
    let preferredVoice :=
      List.find (λ v, existsb (λ keyword, includes (toLowerCase (voice_name v)) keyword)
                        preferredKeywords) langVoices in
    let voice :=
      match preferredVoice with
      | Some v => Some v
      | None =>
          match langVoices with
          | v :: _ => Some v
          | [] => None
          end
      end in
    ([Speak (mkUtterance story langCode voice "1.05" "0.95")], true).

(** [filteredPois] for the props [pois] and the slot [poiSearch]. *)
Definition filteredPois (pois : list POI.t) (poiSearch : string) : list POI.t :=
  filter (λ p, includes (toLowerCase (POI.name p)) (toLowerCase poiSearch) = true) pois.

End Speech.
End Sidebar.

(** ** A model of the numbers: NaN and the integers

    The instance used to evaluate the definitions on concrete inputs.
    [None] stands for NaN.  Integers print in decimal, and [parseFloat]
    reads the longest prefix that is an optionally signed run of digits. *)

Module IntegerNumber.

Definition digit_value (c : ascii) : option Z :=
  if is_digit c then Some (Z.of_nat (nat_of_ascii c) - 48)%Z else None.

Fixpoint read_digits (s : string) (acc : option Z) : option Z :=
  match s with
  | EmptyString => acc
  | String c s' =>
      match digit_value c with
      | Some d => read_digits s' (Some (10 * default 0%Z acc + d)%Z)
      | None => acc
      end
  end.

Definition parse (s : string) : option Z :=
  match s with
  | String "-" s' => Z.opp <$> read_digits s' None
  | String "+" s' => read_digits s' None
  | _ => read_digits s None
  end.

Fixpoint print_digits (fuel : nat) (n : N) (acc : string) : string :=
  match fuel with
  | O => acc
  | S fuel' =>
      let acc := String (ascii_of_N (48 + n mod 10)) acc in
      if (n / 10 =? 0)%N then acc else print_digits fuel' (n / 10)%N acc
  end.

Definition print (x : option Z) : string :=
  match x with
  | None => "NaN"
  | Some z =>
      let digits := print_digits (S (N.to_nat (N.log2 (Z.to_N (Z.abs z))))) (Z.to_N (Z.abs z)) "" in
      if (z <? 0)%Z then String "-" digits else digits
  end.

Definition integers : JsNumber :=
  {| number := option Z;
     Number_toString := print;
     parseFloat := parse |}.

(** [isNaN] on these numbers. *)
Definition isNaN (x : option Z) : bool :=
  match x with
  | None => true
  | Some _ => false
  end.

End IntegerNumber.

(** ** What the specification says a record yields *)

Module Spec.
Section Spec.
Context `{JsNumber}.

(** A tag is present when it has a non-empty value. *)
Definition present (tags : gmap string string) (key : string) : option string :=
  match tags !! key with
  | Some v => if decide (v = "") then None else Some v
  | None => None
  end.

Definition address_fields : list string :=
  ["addr:housenumber"; "addr:street"; "addr:postcode"; "addr:city"].

(** The record derived from the tags [tags] of a node, in the words of the
    specification. *)
Definition derived (tags : gmap string string) (poi : POI.t) : Prop :=
  POI.name poi =
    default OsmService.unnamed_place (present tags "name" ∪ present tags "description")
  ∧ POI.type poi = default "poi" (present tags "tourism" ∪ present tags "historic")
  ∧ POI.address poi =
      (let fields := omap (present tags) address_fields in
       if decide (fields = []) then None else Some (String.concat ", " fields))
  ∧ POI.address poi ≠ Some ""
  ∧ POI.website poi =
      match present tags "website" with
      | Some w => Some w
      | None => tags !! "url"
      end.

(** Overpass's [~] with a regular expression that is a choice of words:
    the value contains one of the alternatives. *)
Definition matches (alternatives : list string) (value : string) : bool :=
  existsb (includes value) alternatives.

(** The value of the tag through which a statement of the query matched a
    node, if it did. *)
Definition matched_tag (tags : gmap string string) (filter : string * list string)
    : option string :=
  match tags !! filter.1 with
  | Some v => if matches filter.2 v then Some v else None
  | None => None
  end.

(** The values of the tags through which the query matched a node; the
    node is in the answer to the query when there is one. *)
Definition matched (tags : gmap string string) : list string :=
  omap (matched_tag tags) OsmService.query_filters.

(** The [display_name] a reverse-geocoding answer carries, if the request
    succeeded and the answer has one that is a string. *)
Definition display_name_of (response : completion Value) : option string :=
  match response with
  | Normal (VObject fields) =>
      match fields !! "display_name" with
      | Some (VString s) => Some s
      | _ => None
      end
  | _ => None
  end.

(** The first comma-delimited segment of a string. *)
Fixpoint first_segment (s : string) : string :=
  match s with
  | EmptyString => EmptyString
  | String c s' => if Ascii.eqb c "," then EmptyString else String c (first_segment s')
  end.

(** The text fragments the stream has delivered, in arrival order, in a
    sequence of operations of [handleGenerateStory]; a chunk without text
    contributes the empty fragment. *)
Fixpoint fragments (ops : list App.Op) : list string :=
  match ops with
  | [] => []
  | App.Receive c :: ops' => default "" (GeminiService.text c) :: fragments ops'
  | _ :: ops' => fragments ops'
  end.

(** The concatenation of a list of fragments. *)
Definition concatenation (l : list string) : string :=
  foldr String.append "" l.

(** The fragment a chunk carries; a chunk without text carries the empty
    fragment. *)
Definition fragment (c : GeminiService.Chunk) : string :=
  default "" (GeminiService.text c).

(** The chunks the [for await] loop has taken from the stream, in arrival
    order, in a sequence of operations of [handleGenerateStory]. *)
Fixpoint received (ops : list App.Op) : list GeminiService.Chunk :=
  match ops with
  | [] => []
  | App.Receive c :: ops' => c :: received ops'
  | _ :: ops' => received ops'
  end.

(** The chunks the service delivers in a generation: those of the stream
    it answered with; none when the key is missing or the call fails. *)
Definition delivered (API_KEY : option string)
    (service : completion GeminiService.Stream) : list GeminiService.Chunk :=
  if truthy API_KEY then
    match service with
    | Normal stream => GeminiService.chunks stream
    | Throw _ => []
    end
  else [].

(** A click on the map whose request settles before anything else happens. *)
Definition click_and_settle (w : App.World)
    (c : number * number * completion Value) : App.World :=
  let '(lat, lng, response) := c in
  let i := length (App.pendingClicks w) in
  App.step (App.step w (App.MapClick lat lng)) (App.GeocodeSettled i response).

(** The location such a click produces. *)
Definition clicked (c : number * number * completion Value) : Location.t :=
  let '(lat, lng, response) := c in
  Location.mk lat lng
    (from_option first_segment OsmService.unknown_place (display_name_of response)).

(** A number the platform prints without the delimiter of the link fields
    and reads back as itself. *)
Definition printable (x : number) : Prop :=
  parseFloat (Number_toString x) = x ∧ occurs "|" (Number_toString x) = false.

Definition printable_location (l : Location.t) : Prop :=
  printable (Location.lat l) ∧ printable (Location.lng l).

(** The POI requests settle in the order they were started: each
    settlement is that of the oldest waiting request. *)
Definition in_order (evs : list App.Event) : Prop :=
  Forall (λ ev, match ev with
                | App.PoisSettled i _ => i = 0%nat
                | _ => True
                end) evs.

(** The [end] the POI list is heading for: that of the youngest waiting
    request, or, when none is waiting, that of the run that wrote the list. *)
Definition pois_target (w : App.World) : option Location.t :=
  match last (App.pendingPois w) with
  | Some e => Some e
  | None => App.poisFor w
  end.

(** The control [c] was created for the route from [start] to [end_] by
    the transport mode [mode]. *)
Definition created_for (c : MapComponent.Control)
    (start end_ : option Location.t) (mode : TransportMode) : Prop :=
  ∃ s e,
    start = Some s ∧ end_ = Some e
    ∧ MapComponent.waypoints c
      = ((Location.lat s, Location.lng s), (Location.lat e, Location.lng e))
    ∧ MapComponent.profile c = MapComponent.profile_of mode
    ∧ MapComponent.color c = MapComponent.color_of mode.

(** Every ['routesfound'] notification of the run [evs] from [m] comes from
    a control that is on the map when it fires. *)
Fixpoint from_attached (evs : list MapComponent.Event) (m : MapComponent.Machine) : Prop :=
  match evs with
  | [] => True
  | ev :: evs' =>
      match ev with
      | MapComponent.RoutesFound c _ =>
          MapComponent.onMap <$> MapComponent.controls m !! c = Some true
      | _ => True
      end
      ∧ from_attached evs' (MapComponent.step m ev)
  end.

(** The summary on display, if any, was reported by a control created for
    the current props. *)
Definition summary_current (m : MapComponent.Machine) : Prop :=
  ∀ s, MapComponent.routeSummary m = Some s →
    ∃ c ctrl,
      MapComponent.summaryFrom m = Some c
      ∧ MapComponent.controls m !! c = Some ctrl
      ∧ created_for ctrl (MapComponent.start m) (MapComponent.end_ m)
          (MapComponent.transportMode m).

(** The controls of [m] once the one the ref points to is detached. *)
Definition detached (m : MapComponent.Machine) : list MapComponent.Control :=
  match MapComponent.routingControlRef m with
  | Some c => alter MapComponent.detach c (MapComponent.controls m)
  | None => MapComponent.controls m
  end.

(** The control the effect creates for a start, an end and a mode. *)
Definition control_for (s e : Location.t) (mode : TransportMode) (attached : bool)
    : MapComponent.Control :=
  MapComponent.mkControl
    ((Location.lat s, Location.lng s), (Location.lat e, Location.lng e))
    (MapComponent.profile_of mode) (MapComponent.color_of mode) attached.

(** The invariant of the machine that no assumption on the engine is
    needed for: only the control of the ref can be on the map, and it was
    created for the current props. *)
Definition overlay_current (m : MapComponent.Machine) : Prop :=
  (∀ c ctrl, MapComponent.controls m !! c = Some ctrl → MapComponent.onMap ctrl = true →
             MapComponent.routingControlRef m = Some c)
  ∧ (∀ c, MapComponent.routingControlRef m = Some c →
          ∃ ctrl, MapComponent.controls m !! c = Some ctrl
                  ∧ created_for ctrl (MapComponent.start m) (MapComponent.end_ m)
                      (MapComponent.transportMode m)).

(** The summary on display, if any, was written by the control of the ref. *)
Definition summary_from_ref (m : MapComponent.Machine) : Prop :=
  ∀ s, MapComponent.routeSummary m = Some s →
    ∃ c, MapComponent.summaryFrom m = Some c ∧ MapComponent.routingControlRef m = Some c.

(** A run that consists of notifications only. *)
Definition notifications (evs : list MapComponent.Event) : Prop :=
  Forall (λ ev, match ev with
                | MapComponent.RoutesFound _ _ => True
                | _ => False
                end) evs.

(** The slots of the trip: everything but the story and its
    generation flag. *)
Definition same_trip (s s' : App.State) : Prop :=
  App.start s' = App.start s ∧ App.end_ s' = App.end_ s
  ∧ App.pois s' = App.pois s ∧ App.focusedPoi s' = App.focusedPoi s
  ∧ App.selectionMode s' = App.selectionMode s
  ∧ App.isLoadingPois s' = App.isLoadingPois s
  ∧ App.transportMode s' = App.transportMode s.

(** The fragments of all the chunks of a stream. *)
Definition stream_fragments (stream : GeminiService.Stream) : list string :=
  (λ c, default "" (GeminiService.text c)) <$> GeminiService.chunks stream.

(** A control is on the map. *)
Definition attached (m : MapComponent.Machine) (c : nat) : Prop :=
  ∃ ctrl, MapComponent.controls m !! c = Some ctrl ∧ MapComponent.onMap ctrl = true.

(** The positions of everything the map knows of. *)
Definition known_points (start end_ : option Location.t) (pois : list POI.t)
    : list (number * number) :=
  option_list ((λ l, (Location.lat l, Location.lng l)) <$> start)
  ++ option_list ((λ l, (Location.lat l, Location.lng l)) <$> end_)
  ++ ((λ p, (POI.lat p, POI.lng p)) <$> pois).

(** Bounds extended with a list of points, one after the other. *)
Fixpoint extended (isNaN : number → bool) (points : list (number * number))
    (bounds : list (number * number)) : completion (list (number * number)) :=
  match points with
  | [] => Normal bounds
  | (lat, lng) :: rest =>
      bounds ← MapComponent.extend isNaN bounds lat lng;
      extended isNaN rest bounds
  end.

(** A point both coordinates of which are numbers. *)
Definition numeric (isNaN : number → bool) (p : number * number) : Prop :=
  isNaN p.1 = false ∧ isNaN p.2 = false.

(** While the loading flag is set, a request is waiting. *)
Definition loading_is_pending (w : App.World) : Prop :=
  App.isLoadingPois (App.state w) = true → App.pendingPois w ≠ [].

(** Clicks on the map made one after the other. *)
Definition click_all (cs : list (number * number * completion Value))
    (w : App.World) : App.World :=
  fold_left (λ w c, App.step w (App.MapClick c.1.1 c.1.2)) cs w.

(** The requests of the waiting clicks settle, oldest first, with the
    answers of [cs]. *)
Definition settle_all (cs : list (number * number * completion Value))
    (w : App.World) : App.World :=
  fold_left (λ w c, App.step w (App.GeocodeSettled 0 c.2)) cs w.


(** The places line of the prompt for a list of POIs. *)
Definition places (pois : list POI.t) : string :=
  if decide (pois = []) then "quelques lieux mystérieux"
  else String.concat ", " (POI.name <$> pois).

(** The primary language subtag of the speech for a story language. *)
Definition language_prefix (lang : StoryLanguage) : string :=
  match lang with
  | ENGLISH => "en"
  | SPANISH => "es"
  | GERMAN => "de"
  | FRENCH | AUTO => "fr"
  end.

(** A voice speaks the language of the story. *)
Definition speaks (lang : StoryLanguage) (v : Sidebar.Voice) : Prop :=
  startsWith (Sidebar.voice_lang v) (language_prefix lang) = true.

(** The name of a voice holds one of the preferred keywords. *)
Definition preferred (toLowerCase : string → string) (v : Sidebar.Voice) : Prop :=
  ∃ keyword, keyword ∈ Sidebar.preferredKeywords
             ∧ includes (toLowerCase (Sidebar.voice_name v)) keyword = true.

End Spec.
End Spec.

(** ** A concrete scenario

    Three places with integer coordinates, answers of the services and
    routes, used to run the definitions. *)

Module Scenario.
Section Scenario.
#[local] Existing Instance IntegerNumber.integers.

Definition paris : Location.t := Location.mk (Some 48%Z) (Some 2%Z) "Paris".
Definition lyon : Location.t := Location.mk (Some 45%Z) (Some 4%Z) "Lyon".
Definition nice : Location.t := Location.mk (Some 43%Z) (Some 7%Z) "Nice | Côte d'Azur".

(** A museum near Paris, as the Overpass service reports it. *)
Definition louvre_node : OsmService.Element :=
  OsmService.mkElement (Some 1%Z) (Some 48%Z) (Some 2%Z)
    (Some {["tourism" := "museum"; "name" := "Louvre"]}).

(** A castle that is also a hotel: the query finds it through its
    [historic] tag only. *)
Definition castle_hotel : OsmService.Element :=
  OsmService.mkElement (Some 2%Z) (Some 48%Z) (Some 2%Z)
    (Some {[ "name" := "Château d'Esclimont"; "tourism" := "hotel";
             "historic" := "castle" ]}).

Definition paris_answer : completion (option OsmService.OverpassData) :=
  Normal (Some (OsmService.mkOverpassData (Some [louvre_node]))).

(** Nothing of interest is reported near Lyon. *)
Definition lyon_answer : completion (option OsmService.OverpassData) :=
  Normal (Some (OsmService.mkOverpassData (Some []))).

(** The session a link is made of. *)
Definition session : App.State :=
  App.mkState (Some paris) (Some nice) [] None sel_end "" false false bike.

(** The route by car from Paris to Lyon and the walk from Paris to Nice. *)
Definition drive : MapComponent.Route :=
  MapComponent.mkRoute (MapComponent.mkRouteSummary (Some 465000%Z) (Some 16200%Z)).
Definition walk : MapComponent.Route :=
  MapComponent.mkRoute (MapComponent.mkRouteSummary (Some 930000%Z) (Some 680000%Z)).

(** A stream of three chunks, the second without text. *)
Definition tale : GeminiService.Stream :=
  GeminiService.mkStream
    [GeminiService.mkChunk (Some "Il était "); GeminiService.mkChunk None;
     GeminiService.mkChunk (Some "une fois")] None.

Definition config : StoryConfig := mkStoryConfig ADVENTURE FRENCH.


(** Two clicks on the map and the answers of the geocoder to them. *)
Definition two_clicks : list (number * number * completion Value) :=
  [(Some 48%Z, Some 2%Z, Normal (VObject {["display_name" := VString "Paris, France"]}));
   (Some 45%Z, Some 4%Z, Throw NetworkError)].

End Scenario.
End Scenario.

(** * Properties *)

(** ** The runtime fragment *)

Section JsFacts.

Lemma eqb_empty_decide (s : string) :
  String.eqb s "" = bool_decide (s = "").
Proof.
  destruct (String.eqb_spec s ""); symmetry.
  - by apply bool_decide_eq_true.
  - by apply bool_decide_eq_false.
Qed.

Lemma split_head (sep : ascii) (s : string) :
  ∃ h t, split sep s = h :: t.
Proof.
  induction s as [|c s IH]; simpl; [by eauto|].
  destruct (Ascii.eqb c sep); [by eauto|].
  destruct IH as (h & t & ->). by eauto.
Qed.

Lemma split_first_segment (s : string) :
  head (split "," s) = Some (Spec.first_segment s).
Proof.
  induction s as [|c s IH]; simpl; [done|].
  destruct (Ascii.eqb c ","); [done|].
  destruct (split "," s) as [|h t]; simpl in *; [done|].
  by injection IH as ->.
Qed.

Lemma filter_Boolean_present (tags : gmap string string) (keys : list string) :
  filter_Boolean ((λ k, tags !! k) <$> keys) = omap (Spec.present tags) keys.
Proof.
  induction keys as [|k keys IH]; csimpl; [done|].
  rewrite <- IH. unfold Spec.present.
  destruct (tags !! k) as [v|]; [|done].
  rewrite eqb_empty_decide. destruct (decide (v = "")) as [->|Hv].
  - by rewrite bool_decide_eq_true_2.
  - by rewrite bool_decide_eq_false_2.
Qed.

Lemma present_nonempty (tags : gmap string string) (k v : string) :
  Spec.present tags k = Some v → v ≠ "".
Proof.
  unfold Spec.present. destruct (tags !! k) as [u|]; [|done].
  destruct (decide (u = "")); [done|]. by intros [= <-].
Qed.

Lemma concat_nonempty (sep : string) (l : list string) :
  l ≠ [] → Forall (λ s, s ≠ "") l → String.concat sep l ≠ "".
Proof.
  destruct l as [|x l]; [done|]. intros _ Hl.
  apply Forall_cons in Hl as [Hx _].
  destruct x as [|c x]; [done|].
  simpl. by destruct l.
Qed.

Lemma or_default_present (tags : gmap string string) (k1 k2 d : string) :
  or_default (Js.or (tags !! k1) (tags !! k2)) d
  = default d (Spec.present tags k1 ∪ Spec.present tags k2).
Proof.
  unfold Js.or, or_default, truthy, Spec.present.
  destruct (tags !! k1) as [v1|]; destruct (tags !! k2) as [v2|]; simpl;
    repeat match goal with
           | |- context [String.eqb ?v ""] => destruct (String.eqb_spec v ""); simpl
           end;
    repeat case_decide; simpl; congruence.
Qed.

End JsFacts.

(** ** [osmService.ts] *)

Section OsmServiceProperties.
Context `{JsNumber}.
Import OsmService.

Lemma present_fields_nonempty (tags : gmap string string) (keys : list string) :
  Forall (λ s, s ≠ "") (omap (Spec.present tags) keys).
Proof.
  apply Forall_forall. intros v Hv.
  apply list_elem_of_omap in Hv as (k & _ & Hk).
  by eapply present_nonempty.
Qed.

Lemma toPOI_address (el : Element) :
  let fields := omap (Spec.present (default ∅ (el_tags el))) Spec.address_fields in
  POI.address (toPOI el)
  = if decide (fields = []) then None else Some (String.concat ", " fields).
Proof.
  intros fields. unfold toPOI. cbn [POI.address].
  set (tags := default ∅ (el_tags el)) in *.
  change [tags !! "addr:housenumber"; tags !! "addr:street";
          tags !! "addr:postcode"; tags !! "addr:city"]
    with ((λ k, tags !! k) <$> Spec.address_fields).
  rewrite filter_Boolean_present. fold fields. unfold join.
  destruct (decide (fields = [])) as [->|Hne]; [done|].
  destruct (String.eqb_spec (String.concat ", " fields) "") as [Heq|]; [|done].
  exfalso. revert Heq. apply concat_nonempty; [done|].
  apply present_fields_nonempty.
Qed.

Lemma toPOI_derived (el : Element) :
  Spec.derived (default ∅ (el_tags el)) (toPOI el).
Proof.
  repeat split.
  - apply or_default_present.
  - apply or_default_present.
  - apply toPOI_address.
  - rewrite toPOI_address. cbv zeta. case_decide as Hne; [done|].
    pose proof (concat_nonempty ", " _ Hne (present_fields_nonempty _ _)).
    congruence.
  - unfold toPOI. cbn [POI.website]. unfold Js.or, truthy, Spec.present.
    destruct (default ∅ (el_tags el) !! "website") as [w|]; [|done].
    destruct (String.eqb_spec w ""); simpl; by case_decide.
Qed.

(** A tag that matched the query has a value that is not empty. *)
Lemma matched_tag_present (tags : gmap string string) (filter : string * list string)
    (v : string) :
  filter ∈ query_filters →
  Spec.matched_tag tags filter = Some v →
  Spec.present tags filter.1 = Some v.
Proof.
  intros Hf. unfold Spec.matched_tag, Spec.present.
  destruct (tags !! filter.1) as [w|]; [|done].
  destruct (Spec.matches filter.2 w) eqn:Hm; [|done].
  intros [= ->]. case_decide as Hv; [|done]. subst v. exfalso.
  unfold query_filters in Hf.
  apply elem_of_cons in Hf as [->|Hf]; [discriminate|].
  apply elem_of_cons in Hf as [->|Hf]; [discriminate|].
  by apply elem_of_nil in Hf.
Qed.

(** C5.  For every list of raw records the service returns, [getPOIs]
    answers normally with a sublist of the derived records, taken in order.
    Each derived record has the name tag as its name, else the description
    tag, else the placeholder; the present address sub-fields joined by
    commas as its address; the website tag, else the url tag, as its
    website.  Its category is the tourism tag when the node has one that is
    not empty, else the historic tag, else ["poi"], whichever tag the query
    matched: for a node of the answer to the query it is the value of a tag
    that matched as long as the tourism tag is missing, empty or matched
    itself.  The answer holds exactly the derived records whose name is not
    the placeholder; a record tagged only [tourism = museum] is dropped. *)
Theorem getPOIs_derives_named_records (els : list Element) :
  ∃ result,
    getPOIs (Normal (Some (mkOverpassData (Some els)))) = Normal result
    ∧ sublist result (toPOI <$> els)
    ∧ (∀ el, Spec.derived (default ∅ (el_tags el)) (toPOI el))
    ∧ (∀ el,
         let tags := default ∅ (el_tags el) in
         Spec.matched tags ≠ [] →
         Spec.present tags "tourism" = None
         ∨ is_Some (Spec.matched_tag tags tourism_filter) →
         POI.type (toPOI el) ∈ Spec.matched tags)
    ∧ (∀ poi, poi ∈ result ↔ poi ∈ (toPOI <$> els) ∧ POI.name poi ≠ unnamed_place)
    ∧ (∀ id lat lon,
         getPOIs (Normal (Some (mkOverpassData
           (Some [mkElement id lat lon (Some {["tourism" := "museum"]})]))))
         = Normal []).
Proof.
  exists (filter named (toPOI <$> els)). split_and!.
  - done.
  - apply sublist_filter.
  - apply toPOI_derived.
  - intros el tags Hm Ht.
    destruct (toPOI_derived el) as (_ & Htype & _). fold tags in Htype.
    rewrite Htype. unfold Spec.matched, query_filters in Hm |- *.
    cbn [omap list_omap] in Hm |- *.
    pose proof (matched_tag_present tags tourism_filter) as Hpt.
    pose proof (matched_tag_present tags historic_filter) as Hph.
    change (tourism_filter.1) with "tourism" in Hpt.
    change (historic_filter.1) with "historic" in Hph.
    destruct (Spec.matched_tag tags tourism_filter) as [v|].
    + rewrite (Hpt v); [|apply list_elem_of_here|done].
      destruct (Spec.present tags "historic"); apply list_elem_of_here.
    + destruct Ht as [Ht|[? [=]]]. rewrite Ht.
      destruct (Spec.matched_tag tags historic_filter) as [v|]; [|done].
      rewrite (Hph v); [|apply list_elem_of_further, list_elem_of_here|done].
      apply list_elem_of_here.
  - intros poi. rewrite list_elem_of_filter. unfold named. tauto.
  - intros id lat lon. reflexivity.
Qed.

End OsmServiceProperties.

(** ** Reverse geocoding and map clicks *)

Section ClickProperties.
Context `{JsNumber}.

Lemma reverseGeocode_spec (response : completion Value) :
  OsmService.reverseGeocode response
  = Normal (from_option Spec.first_segment OsmService.unknown_place
              (Spec.display_name_of response)).
Proof.
  unfold OsmService.reverseGeocode, Spec.display_name_of.
  destruct response as [data|e]; [|done].
  destruct data as [| | | | |l|fields]; try done.
  cbn [mbind completion_bind Js.get try_catch].
  destruct (fields !! "display_name") as [[| | | |s| |]|]; try done.
  cbn [default id Js.call_split mbind completion_bind try_catch from_option
       mret completion_ret].
  by rewrite split_first_segment.
Qed.

Lemma click_result {S : Type} (setStart setEnd : Location.t → S → S)
    (mode : SelectionMode) (setSelectionMode : SelectionMode → S → S)
    (lat lng : number) (response : completion Value) (s : S) :
  MapComponent.click setStart setEnd mode setSelectionMode lat lng response s
  = let name := from_option Spec.first_segment OsmService.unknown_place
                  (Spec.display_name_of response) in
    Normal match mode with
           | sel_start => setSelectionMode sel_end (setStart (Location.mk lat lng name) s)
           | sel_end => setEnd (Location.mk lat lng name) s
           end.
Proof.
  unfold MapComponent.click. rewrite reverseGeocode_spec.
  by destruct mode.
Qed.

Lemma fetchPois_start_start (w : App.World) :
  App.start (App.state (App.fetchPois_start w)) = App.start (App.state w).
Proof. unfold App.fetchPois_start. destruct (App.end_ (App.state w)) eqn:E; simpl; congruence. Qed.

Lemma fetchPois_start_end (w : App.World) :
  App.end_ (App.state (App.fetchPois_start w)) = App.end_ (App.state w).
Proof. unfold App.fetchPois_start. destruct (App.end_ (App.state w)) eqn:E; simpl; congruence. Qed.

Lemma fetchPois_start_selectionMode (w : App.World) :
  App.selectionMode (App.state (App.fetchPois_start w)) = App.selectionMode (App.state w).
Proof. unfold App.fetchPois_start. destruct (App.end_ (App.state w)) eqn:E; simpl; congruence. Qed.

(** What the settling of the request of a waiting click does to the world. *)
Lemma step_GeocodeSettled (w : App.World) (i : nat) (mode : SelectionMode)
    (lat lng : number) (response : completion Value) :
  App.pendingClicks w !! i = Some (mode, lat, lng) →
  let name := from_option Spec.first_segment OsmService.unknown_place
                (Spec.display_name_of response) in
  let w' := App.step w (App.GeocodeSettled i response) in
  match mode with
  | sel_start =>
      App.start (App.state w') = Some (Location.mk lat lng name)
      ∧ App.end_ (App.state w') = App.end_ (App.state w)
      ∧ App.selectionMode (App.state w') = sel_end
  | sel_end =>
      App.end_ (App.state w') = Some (Location.mk lat lng name)
      ∧ App.start (App.state w') = App.start (App.state w)
      ∧ App.selectionMode (App.state w') = App.selectionMode (App.state w)
  end.
Proof.
  intros Hi name w'. subst w'. unfold App.step. rewrite Hi.
  rewrite click_result. fold name. cbv zeta.
  destruct mode; cbn [App.state App.with_state].
  - done.
  - by rewrite fetchPois_start_end, fetchPois_start_start, fetchPois_start_selectionMode.
Qed.

(** C6.  [reverseGeocode] always completes normally with a name, and the
    name is the placeholder "Lieu inconnu" whenever the request fails or the
    answer carries no display name.  The click handler then completes
    normally too, whatever the setters are; in the application the waiting
    click sets the slot it targets to the clicked position labelled with
    that name. *)
Theorem click_creates_waypoint_despite_geocoding_failure (response : completion Value) :
  ∃ name,
    OsmService.reverseGeocode response = Normal name
    ∧ (∀ e, response = Throw e → name = OsmService.unknown_place)
    ∧ (Spec.display_name_of response = None → name = OsmService.unknown_place)
    ∧ (∀ (S : Type) (setStart setEnd : Location.t → S → S)
         (setSelectionMode : SelectionMode → S → S) (lat lng : number) (s : S),
         MapComponent.click setStart setEnd sel_start setSelectionMode lat lng response s
         = Normal (setSelectionMode sel_end (setStart (Location.mk lat lng name) s))
         ∧ MapComponent.click setStart setEnd sel_end setSelectionMode lat lng response s
           = Normal (setEnd (Location.mk lat lng name) s))
    ∧ (∀ (w : App.World) (i : nat) (mode : SelectionMode) (lat lng : number),
         App.pendingClicks w !! i = Some (mode, lat, lng) →
         let w' := App.step w (App.GeocodeSettled i response) in
         match mode with
         | sel_start => App.start (App.state w') = Some (Location.mk lat lng name)
         | sel_end => App.end_ (App.state w') = Some (Location.mk lat lng name)
         end).
Proof.
  eexists. split; [apply reverseGeocode_spec|]. split_and!.
  - by intros e ->.
  - by intros ->.
  - intros. by rewrite !click_result.
  - intros w i mode lat lng Hi.
    pose proof (step_GeocodeSettled w i mode lat lng response Hi) as Hstep.
    cbv zeta in *. destruct mode; apply Hstep.
Qed.

End ClickProperties.

(** ** [geminiService.ts] *)

Section GeminiServiceProperties.
Context `{JsNumber}.

(** C7.  When [process.env.API_KEY] is absent (undefined or empty),
    [generateStoryStream] throws before it creates the client or sends the
    prompt; a story generation started from the application then performs
    no action on the client either. *)
Theorem generateStoryStream_fails_fast (API_KEY : option string)
    (service : completion GeminiService.Stream) (start end_ : Location.t)
    (pois : list POI.t) (config : StoryConfig) :
  truthy API_KEY = false →
  GeminiService.generateStoryStream API_KEY service start end_ pois config
  = ([], Throw GeminiService.missing_key)
  ∧ ∀ s : App.State,
      Forall (λ op, ∀ a, op ≠ App.Client a)
        (App.handleGenerateStory API_KEY service config s).
Proof.
  intros Hkey. split.
  - unfold GeminiService.generateStoryStream. by rewrite Hkey.
  - intros s. unfold App.handleGenerateStory.
    destruct (App.start s), (App.end_ s); try by constructor.
    unfold GeminiService.generateStoryStream. rewrite Hkey. simpl.
    repeat constructor; done.
Qed.

End GeminiServiceProperties.

(** ** Selection mode *)

Section SelectionProperties.
Context `{JsNumber}.

Lemma fetchPois_start_pendingClicks (w : App.World) :
  App.pendingClicks (App.fetchPois_start w) = App.pendingClicks w.
Proof. unfold App.fetchPois_start. by destruct (App.end_ (App.state w)). Qed.

(** A click that settles at once, in a world where no click is waiting. *)
Lemma click_and_settle_spec (w : App.World) (c : number * number * completion Value) :
  App.pendingClicks w = [] →
  let w' := Spec.click_and_settle w c in
  App.pendingClicks w' = []
  ∧ match App.selectionMode (App.state w) with
    | sel_start =>
        App.start (App.state w') = Some (Spec.clicked c)
        ∧ App.end_ (App.state w') = App.end_ (App.state w)
        ∧ App.selectionMode (App.state w') = sel_end
    | sel_end =>
        App.end_ (App.state w') = Some (Spec.clicked c)
        ∧ App.start (App.state w') = App.start (App.state w)
        ∧ App.selectionMode (App.state w') = sel_end
    end.
Proof.
  intros Hp. destruct c as [[lat lng] response]. cbv zeta.
  unfold Spec.click_and_settle, Spec.clicked. rewrite Hp. cbn [length].
  set (w1 := App.step w (App.MapClick lat lng)).
  assert (App.pendingClicks w1 !! 0%nat
          = Some (App.selectionMode (App.state w), lat, lng)) as H0.
  { subst w1. cbn [App.step App.pendingClicks]. by rewrite Hp. }
  pose proof (step_GeocodeSettled w1 0 _ lat lng response H0) as Hstep.
  cbv zeta in Hstep.
  split.
  - unfold App.step at 1. rewrite H0. rewrite click_result. cbv zeta.
    subst w1. cbn [App.step App.pendingClicks App.state]. rewrite Hp.
    destruct (App.selectionMode (App.state w)); cbn [App.with_state App.pendingClicks];
      rewrite ?fetchPois_start_pendingClicks; reflexivity.
  - destruct (App.selectionMode (App.state w)) eqn:Hm; [done|].
    destruct Hstep as (He & Hs & Hsel). split_and!; [done|done|].
    rewrite Hsel. subst w1. cbn [App.step App.state]. done.
Qed.

Lemma clicks_after_first (cs : list (number * number * completion Value))
    (w : App.World) :
  App.pendingClicks w = [] →
  App.selectionMode (App.state w) = sel_end →
  let w' := fold_left Spec.click_and_settle cs w in
  App.pendingClicks w' = []
  ∧ App.selectionMode (App.state w') = sel_end
  ∧ App.start (App.state w') = App.start (App.state w)
  ∧ App.end_ (App.state w')
    = from_option (λ c, Some (Spec.clicked c)) (App.end_ (App.state w)) (last cs).
Proof.
  revert w. induction cs as [|c cs IH]; intros w Hp Hm; [done|].
  cbn [fold_left]. cbv zeta.
  pose proof (click_and_settle_spec w c Hp) as [Hp' Hc].
  rewrite Hm in Hc. destruct Hc as (He & Hs & Hm').
  destruct (IH _ Hp' Hm') as (IH1 & IH2 & IH3 & IH4).
  split_and!; [done|done|congruence|].
  rewrite IH4, He, last_cons. by destruct (last cs).
Qed.

(** C4.  The selection mode starts at ['start'], also after loading a
    shared link.  A click closes over the mode of the moment it happens.
    When its handler resumes, a handler that saw ['start'] sets the start
    coordinate and the mode ['end']; one that saw ['end'] sets the end
    coordinate and leaves the mode as it is.  Hence, in every sequence of
    clicks handled one after the other from a fresh application, the first
    click sets the start, every later one sets the end, and the mode is
    ['end'] from the first click on. *)
Theorem selection_mode_advances_on_start_only :
  App.selectionMode App.initial = sel_start
  ∧ (∀ params, App.selectionMode (App.state (App.mount params)) = sel_start
               ∧ App.pendingClicks (App.mount params) = [])
  ∧ (∀ w lat lng,
       App.pendingClicks (App.step w (App.MapClick lat lng))
       = App.pendingClicks w ++ [(App.selectionMode (App.state w), lat, lng)])
  ∧ (∀ w i lat lng response,
       App.pendingClicks w !! i = Some (sel_start, lat, lng) →
       let w' := App.step w (App.GeocodeSettled i response) in
       App.start (App.state w') = Some (Spec.clicked (lat, lng, response))
       ∧ App.selectionMode (App.state w') = sel_end)
  ∧ (∀ w i lat lng response,
       App.pendingClicks w !! i = Some (sel_end, lat, lng) →
       let w' := App.step w (App.GeocodeSettled i response) in
       App.end_ (App.state w') = Some (Spec.clicked (lat, lng, response))
       ∧ App.selectionMode (App.state w') = App.selectionMode (App.state w))
  ∧ (∀ params c cs,
       let w' := fold_left Spec.click_and_settle (c :: cs) (App.mount params) in
       App.selectionMode (App.state w') = sel_end
       ∧ App.start (App.state w') = Some (Spec.clicked c)
       ∧ App.end_ (App.state w')
         = from_option (λ c, Some (Spec.clicked c))
             (App.end_ (App.state (App.mount params))) (last cs)).
Proof.
  assert (∀ params, App.selectionMode (App.state (App.mount params)) = sel_start
                    ∧ App.pendingClicks (App.mount params) = []) as Hmount.
  { intros params. unfold App.mount.
    set (w0 := App.mkWorld _ _ _ _).
    assert (App.selectionMode (App.state w0) = sel_start ∧ App.pendingClicks w0 = [])
      as [Hs Hp].
    { subst w0. cbn [App.state App.pendingClicks].
      rewrite fetchPois_start_pendingClicks. split; [|done].
      unfold App.loadFromURL.
      repeat (case_match; cbn [App.selectionMode App.setStart App.setEnd
                               App.setTransportMode]);
        by rewrite fetchPois_start_selectionMode. }
    destruct (App.end_ (App.state w0));
      by rewrite ?fetchPois_start_selectionMode, ?fetchPois_start_pendingClicks. }
  split_and!.
  - done.
  - done.
  - done.
  - intros w i lat lng response Hi.
    pose proof (step_GeocodeSettled w i _ lat lng response Hi) as Hstep.
    cbv beta iota zeta in Hstep. cbv zeta. unfold Spec.clicked. tauto.
  - intros w i lat lng response Hi.
    pose proof (step_GeocodeSettled w i _ lat lng response Hi) as Hstep.
    cbv beta iota zeta in Hstep. cbv zeta. unfold Spec.clicked. tauto.
  - intros params c cs. cbn [fold_left]. cbv zeta.
    destruct (Hmount params) as [Hs Hp].
    pose proof (click_and_settle_spec _ c Hp) as [Hp' Hc].
    rewrite Hs in Hc. destruct Hc as (Hst & He & Hm).
    destruct (clicks_after_first cs _ Hp' Hm) as (_ & H2 & H3 & H4).
    split_and!; [done|congruence|]. by rewrite H4, He.
Qed.

End SelectionProperties.

(** ** Story generation *)

Section StoryProperties.
Context `{JsNumber}.

Lemma append_nil_r (s : string) : s +:+ "" = s.
Proof.
  induction s as [|c s IH]; [done|].
  change (String c (s +:+ "") = String c s). by rewrite IH.
Qed.

Lemma append_assoc (s t u : string) : (s +:+ t) +:+ u = s +:+ (t +:+ u).
Proof.
  induction s as [|c s IH]; [done|].
  change (String c ((s +:+ t) +:+ u) = String c (s +:+ (t +:+ u))). by rewrite IH.
Qed.

Lemma perform_app (ops1 ops2 : list App.Op) (s : App.State) :
  App.perform (ops1 ++ ops2) s = App.perform ops2 (App.perform ops1 s).
Proof. apply fold_left_app. Qed.

(** The text a chunk adds to [fullStory] is the fragment it carries. *)
Lemma chunk_text (c : GeminiService.Chunk) :
  (if truthy (GeminiService.text c) then ToString (GeminiService.text c) else "")
  = default "" (GeminiService.text c).
Proof.
  unfold truthy, ToString. destruct (GeminiService.text c) as [t|]; [|done].
  by destruct (String.eqb_spec t "").
Qed.

(** The loop invariant of [for await]: at every suspension of the loop the
    story is [fullStory] as it was on entry followed by the fragments
    received since. *)
Lemma consume_invariant (chunks : list GeminiService.Chunk) (failure : option Error)
    (fullStory : string) (pre post : list App.Op) (s : App.State) :
  App.consume chunks failure fullStory = pre ++ App.Await :: post →
  App.story s = fullStory →
  App.isGenerating s = true →
  App.story (App.perform pre s) = fullStory +:+ Spec.concatenation (Spec.fragments pre)
  ∧ App.isGenerating (App.perform pre s) = true.
Proof.
  revert fullStory pre s.
  induction chunks as [|chunk rest IH]; intros fullStory pre s Hops Hstory Hgen.
  - exfalso. cbn [App.consume] in Hops.
    destruct failure; destruct pre as [|? [|? [|? ?]]]; by simplify_eq/=.
  - cbn [App.consume] in Hops.
    pose proof (chunk_text chunk) as Htext.
    destruct (truthy (GeminiService.text chunk)).
    + destruct pre as [|o1 [|o2 [|o3 pre]]]; simplify_eq/=.
      * by rewrite Htext, append_nil_r.
      * lazymatch goal with
        | Hrest : App.consume rest _ _ = _ |- _ =>
            destruct (IH _ _ (App.setStory
                                (App.story s +:+ ToString (GeminiService.text chunk)) s)
                        Hrest) as [IH1 IH2]; [done..|]
        end.
        split; [|done]. by rewrite IH1, Htext, append_assoc.
    + destruct pre as [|o1 [|o2 pre]]; simplify_eq/=.
      * by rewrite <- Htext, append_nil_r.
      * lazymatch goal with
        | Hrest : App.consume rest _ _ = _ |- _ =>
            destruct (IH _ _ s Hrest) as [IH1 IH2]; [done..|]
        end.
        split; [|done]. by rewrite IH1, <- Htext.
Qed.

(** The fragments of a sequence of operations are those of the chunks
    received in it. *)
Lemma fragments_received (ops : list App.Op) :
  Spec.fragments ops = Spec.fragment <$> Spec.received ops.
Proof.
  induction ops as [|op ops IH]; [done|].
  destruct op; cbn [Spec.fragments Spec.received fmap list_fmap]; by rewrite ?IH.
Qed.

Lemma received_app (ops1 ops2 : list App.Op) :
  Spec.received (ops1 ++ ops2) = Spec.received ops1 ++ Spec.received ops2.
Proof.
  induction ops1 as [|op ops1 IH]; [done|].
  destruct op; cbn [app Spec.received]; by rewrite ?IH.
Qed.

(** The loop takes every chunk of the stream, in order. *)
Lemma received_consume (chunks : list GeminiService.Chunk) (failure : option Error)
    (fullStory : string) :
  Spec.received (App.consume chunks failure fullStory) = chunks.
Proof.
  revert fullStory. induction chunks as [|chunk rest IH]; intros fullStory.
  - by destruct failure.
  - cbn [App.consume]. destruct (truthy (GeminiService.text chunk));
      cbn [app Spec.received]; by rewrite IH.
Qed.

(** At a suspension of the loop the chunks taken so far are a prefix of
    the stream, of one chunk at least. *)
Lemma consume_received (chunks : list GeminiService.Chunk) (failure : option Error)
    (fullStory : string) (pre post : list App.Op) :
  App.consume chunks failure fullStory = pre ++ App.Await :: post →
  ∃ k, (1 ≤ k ≤ length chunks)%nat ∧ Spec.received pre = take k chunks.
Proof.
  revert fullStory pre.
  induction chunks as [|chunk rest IH]; intros fullStory pre Hops.
  - exfalso. cbn [App.consume] in Hops.
    destruct failure; destruct pre as [|? [|? [|? ?]]]; by simplify_eq/=.
  - cbn [App.consume] in Hops.
    destruct (truthy (GeminiService.text chunk)).
    + destruct pre as [|o1 [|o2 [|o3 pre]]]; simplify_eq/=.
      * exists 1%nat. split; [lia|done].
      * lazymatch goal with
        | Hrest : App.consume rest _ _ = _ |- _ =>
            destruct (IH _ _ Hrest) as (k & Hk & Hrec)
        end.
        exists (S k). split; [lia|]. by rewrite Hrec.
    + destruct pre as [|o1 [|o2 pre]]; simplify_eq/=.
      * exists 1%nat. split; [lia|done].
      * lazymatch goal with
        | Hrest : App.consume rest _ _ = _ |- _ =>
            destruct (IH _ _ Hrest) as (k & Hk & Hrec)
        end.
        exists (S k). split; [lia|]. by rewrite Hrec.
Qed.

(** The loop is suspended after each chunk of the stream. *)
Lemma consume_suspends (chunks : list GeminiService.Chunk) (failure : option Error)
    (fullStory : string) (k : nat) :
  (1 ≤ k ≤ length chunks)%nat →
  ∃ pre post,
    App.consume chunks failure fullStory = pre ++ App.Await :: post
    ∧ Spec.received pre = take k chunks.
Proof.
  revert fullStory k.
  induction chunks as [|chunk rest IH]; intros fullStory k Hk; [simpl in Hk; lia|].
  destruct k as [|[|k]]; [lia| |].
  - cbn [App.consume]. destruct (truthy (GeminiService.text chunk)).
    + by eexists [App.Receive chunk; App.SetStory _], _.
    + by eexists [App.Receive chunk], _.
  - cbn [App.consume].
    destruct (truthy (GeminiService.text chunk)); cbn [length] in Hk.
    + destruct (IH (fullStory +:+ ToString (GeminiService.text chunk)) (S k))
        as (pre & post & Hops & Hrec); [lia|].
      exists ([App.Receive chunk; App.SetStory
                 (fullStory +:+ ToString (GeminiService.text chunk)); App.Await] ++ pre), post.
      split; [by rewrite Hops, <- app_assoc|].
      rewrite received_app, Hrec. done.
    + destruct (IH fullStory (S k)) as (pre & post & Hops & Hrec); [lia|].
      exists ([App.Receive chunk; App.Await] ++ pre), post.
      split; [by rewrite Hops, <- app_assoc|].
      rewrite received_app, Hrec. done.
Qed.

(** C10.  A story generation started with both waypoints set begins by
    storing the empty story, before it touches the client or receives a
    fragment.  At every point where the function is suspended the
    generation flag is set and the stored story is the concatenation, in
    arrival order, of the fragments received so far, which are those of
    the first chunks of the stream the service delivers: it contains
    nothing of an earlier story, and nothing the stream has delivered is
    missing from it.  The function is suspended after every chunk of the
    stream, and it takes them all. *)
Theorem story_is_concatenation_of_fragments (API_KEY : option string)
    (service : completion GeminiService.Stream) (config : StoryConfig)
    (s : App.State) (st en : Location.t) :
  App.start s = Some st →
  App.end_ s = Some en →
  let ops := App.handleGenerateStory API_KEY service config s in
  let delivered := Spec.delivered API_KEY service in
  (∃ rest, ops = App.SetIsGenerating true :: App.SetStory "" :: rest)
  ∧ (∀ pre post,
       ops = pre ++ App.Await :: post →
       App.story (App.perform pre s) = Spec.concatenation (Spec.fragments pre)
       ∧ App.isGenerating (App.perform pre s) = true
       ∧ ∃ k, (k ≤ length delivered)%nat
              ∧ Spec.received pre = take k delivered
              ∧ App.story (App.perform pre s)
                = Spec.concatenation (Spec.fragment <$> take k delivered))
  ∧ (∀ k, (k ≤ length delivered)%nat →
       ∃ pre post,
         ops = pre ++ App.Await :: post
         ∧ Spec.received pre = take k delivered
         ∧ App.story (App.perform pre s)
           = Spec.concatenation (Spec.fragment <$> take k delivered))
  ∧ Spec.received ops = delivered.
Proof.
  intros Hst Hen. cbv zeta.
  assert (∀ pre post,
            App.handleGenerateStory API_KEY service config s = pre ++ App.Await :: post →
            App.story (App.perform pre s) = Spec.concatenation (Spec.fragments pre)
            ∧ App.isGenerating (App.perform pre s) = true
            ∧ ∃ k, (k ≤ length (Spec.delivered API_KEY service))%nat
                   ∧ Spec.received pre = take k (Spec.delivered API_KEY service))
    as Hpoints.
  { unfold App.handleGenerateStory, Spec.delivered. rewrite Hst, Hen.
    unfold GeminiService.generateStoryStream.
    destruct (truthy API_KEY); cbn [negb].
    - intros pre post Hops.
      destruct pre as [|o1 [|o2 [|o3 [|o4 [|o5 pre]]]]]; simplify_eq/=.
      { split_and!; [done..|]. exists 0%nat. split; [lia|done]. }
      lazymatch goal with Hrest : _ = pre ++ _ |- _ => rename Hrest into Hops end.
      destruct service as [stream|e]; cbn [try_catch] in Hops.
      + destruct (consume_invariant (GeminiService.chunks stream)
                    (GeminiService.failure stream) "" pre post
                    (App.setStory "" (App.setIsGenerating true s)) Hops)
          as [H1 H2]; [done..|].
        destruct (consume_received _ _ _ _ _ Hops) as (k & Hk & Hrec).
        split_and!; [by rewrite H1|done|]. exists k. split; [lia|done].
      + destruct pre as [|? [|? [|? ?]]]; by simplify_eq/=.
    - intros pre post Hops.
      destruct pre as [|o1 [|o2 [|o3 [|o4 [|o5 [|o6 pre]]]]]]; simplify_eq/=.
      split_and!; [done..|]. exists 0%nat. split; [lia|done]. }
  assert (∀ k, (k ≤ length (Spec.delivered API_KEY service))%nat →
            ∃ pre post,
              App.handleGenerateStory API_KEY service config s = pre ++ App.Await :: post
              ∧ Spec.received pre = take k (Spec.delivered API_KEY service))
    as Hreach.
  { unfold App.handleGenerateStory, Spec.delivered. rewrite Hst, Hen.
    unfold GeminiService.generateStoryStream.
    destruct (truthy API_KEY); cbn [negb].
    - destruct service as [stream|e]; cbn [try_catch].
      + intros [|k] Hk.
        * by eexists [_; _; _; _], _.
        * destruct (consume_suspends (GeminiService.chunks stream)
                      (GeminiService.failure stream) "" (S k))
            as (pre & post & Hops & Hrec); [lia|].
          eexists ([_; _; _; _; App.Await] ++ pre), post.
          split; [cbn [app List.map]; by rewrite Hops|].
          by rewrite received_app, Hrec.
      + intros k Hk. cbn [length] in Hk. assert (k = 0%nat) as -> by lia.
        by eexists [_; _; _; _], _.
    - intros k Hk. cbn [length] in Hk. assert (k = 0%nat) as -> by lia.
      by eexists [_; _], _. }
  split_and!.
  - unfold App.handleGenerateStory. rewrite Hst, Hen.
    destruct (GeminiService.generateStoryStream _ _ _ _ _ _). by eexists.
  - intros pre post Hops.
    destruct (Hpoints pre post Hops) as (H1 & H2 & k & Hk & Hrec).
    split_and!; [done..|]. exists k. split_and!; [done..|].
    by rewrite H1, fragments_received, Hrec.
  - intros k Hk. destruct (Hreach k Hk) as (pre & post & Hops & Hrec).
    exists pre, post. split_and!; [done..|].
    destruct (Hpoints pre post Hops) as (H1 & _).
    by rewrite H1, fragments_received, Hrec.
  - unfold App.handleGenerateStory, Spec.delivered. rewrite Hst, Hen.
    unfold GeminiService.generateStoryStream.
    destruct (truthy API_KEY); cbn [negb]; [|done].
    destruct service as [stream|e]; cbn [try_catch]; [|done].
    cbn [app List.map Spec.received]. apply received_consume.
Qed.

End StoryProperties.

(** ** The shareable link *)

Section UriFacts.

Lemma uriUnescaped_plain (c : ascii) :
  uriUnescaped c = true → Ascii.eqb c "|" = false ∧ Ascii.eqb c "%" = false.
Proof.
  destruct c as [[] [] [] [] [] [] [] []]; vm_compute; intros; by try split.
Qed.

Lemma escape_digits (c : ascii) :
  let n := nat_of_ascii c in
  Ascii.eqb (hex_digit (n / 16)) "|" = false
  ∧ Ascii.eqb (hex_digit (n mod 16)) "|" = false
  ∧ hex_value (hex_digit (n / 16)) = Some (n / 16)%nat
  ∧ hex_value (hex_digit (n mod 16)) = Some (n mod 16)%nat
  ∧ ascii_of_nat (16 * (n / 16) + n mod 16) = c.
Proof.
  destruct c as [[] [] [] [] [] [] [] []]; vm_compute; by repeat split.
Qed.

Lemma encodeURIComponent_no_bar (s : string) :
  occurs "|" (encodeURIComponent s) = false.
Proof.
  induction s as [|c s IH]; [done|]. cbn [encodeURIComponent].
  destruct (uriUnescaped c) eqn:Hc.
  - apply uriUnescaped_plain in Hc as [Hbar _].
    cbn [occurs]. by rewrite Hbar, IH.
  - destruct (escape_digits c) as (Hhi & Hlo & _). cbv zeta.
    cbn [occurs]. by rewrite Hhi, Hlo, IH.
Qed.

Lemma decode_encodeURIComponent (s : string) :
  decodeURIComponent (encodeURIComponent s) = Normal s.
Proof.
  induction s as [|c s IH]; [done|]. cbn [encodeURIComponent].
  destruct (uriUnescaped c) eqn:Hc.
  - apply uriUnescaped_plain in Hc as [_ Hpct].
    cbn [decodeURIComponent]. by rewrite Hpct, IH.
  - destruct (escape_digits c) as (_ & _ & Hhi & Hlo & Hc'). cbv zeta.
    cbn [decodeURIComponent]. change (Ascii.eqb "%" "%") with true. cbv iota.
    by rewrite Hhi, Hlo, IH, Hc'.
Qed.

Lemma split_no_sep (sep : ascii) (s : string) :
  occurs sep s = false → split sep s = [s].
Proof.
  induction s as [|c s IH]; [done|]. cbn [occurs split].
  intros [Hc Hs]%orb_false_elim. by rewrite Hc, IH.
Qed.

Lemma split_app (sep : ascii) (a b : string) :
  occurs sep a = false → split sep (a +:+ String sep b) = a :: split sep b.
Proof.
  induction a as [|c a IH].
  - intros _. change ("" +:+ String sep b) with (String sep b).
    cbn [split]. by rewrite Ascii.eqb_refl.
  - cbn [occurs]. intros [Hc Ha]%orb_false_elim.
    change (String c a +:+ String sep b) with (String c (a +:+ String sep b)).
    cbn [split]. by rewrite Hc, IH.
Qed.

Lemma truthy_app_sep (a b : string) (sep : ascii) :
  truthy (Some (a +:+ String sep b)) = true.
Proof. by destruct a. Qed.

(** *** The query string *)

Lemma unescaped_plain (c : ascii) :
  URLSearchParams.unescaped c = true →
  Ascii.eqb c "&" = false ∧ Ascii.eqb c "=" = false
  ∧ Ascii.eqb c "%" = false ∧ Ascii.eqb c "+" = false.
Proof.
  destruct c as [[] [] [] [] [] [] [] []]; vm_compute; intros; by try split_and!.
Qed.

Lemma escape_digits_plain (c : ascii) :
  let n := nat_of_ascii c in
  Ascii.eqb (hex_digit (n / 16)) "&" = false
  ∧ Ascii.eqb (hex_digit (n mod 16)) "&" = false
  ∧ Ascii.eqb (hex_digit (n / 16)) "=" = false
  ∧ Ascii.eqb (hex_digit (n mod 16)) "=" = false.
Proof.
  destruct c as [[] [] [] [] [] [] [] []]; vm_compute; by repeat split.
Qed.

Lemma serialize_plain (s : string) :
  occurs "&" (URLSearchParams.serialize s) = false
  ∧ occurs "=" (URLSearchParams.serialize s) = false.
Proof.
  induction s as [|c s [IH1 IH2]]; [done|]. cbn [URLSearchParams.serialize].
  destruct (Ascii.eqb c " ") eqn:Hsp; [by cbn [occurs]; rewrite IH1, IH2|].
  destruct (URLSearchParams.unescaped c) eqn:Hc.
  - apply unescaped_plain in Hc as (Hamp & Heq & _).
    cbn [occurs]. by rewrite Hamp, Heq, IH1, IH2.
  - destruct (escape_digits_plain c) as (H1 & H2 & H3 & H4). cbv zeta.
    cbn [occurs]. by rewrite H1, H2, H3, H4, IH1, IH2.
Qed.

Lemma decode_serialize (s : string) :
  URLSearchParams.decode (URLSearchParams.serialize s) = s.
Proof.
  induction s as [|c s IH]; [done|]. cbn [URLSearchParams.serialize].
  destruct (Ascii.eqb_spec c " ") as [->|Hsp].
  - cbn [URLSearchParams.decode]. change (Ascii.eqb "+" "+") with true. cbv iota.
    by rewrite IH.
  - destruct (URLSearchParams.unescaped c) eqn:Hc.
    + apply unescaped_plain in Hc as (_ & _ & Hpct & Hplus).
      cbn [URLSearchParams.decode]. by rewrite Hplus, Hpct, IH.
    + destruct (escape_digits c) as (_ & _ & Hhi & Hlo & Hc'). cbv zeta.
      cbn [URLSearchParams.decode].
      change (Ascii.eqb "%" "+") with false. change (Ascii.eqb "%" "%") with true.
      cbv iota. by rewrite Hhi, Hlo, IH, Hc'.
Qed.

Lemma split_pair_app (a b : string) :
  occurs "=" a = false →
  URLSearchParams.split_pair (a +:+ String "=" b) = (a, b).
Proof.
  induction a as [|c a IH].
  - intros _. change ("" +:+ String "=" b) with (String "=" b). done.
  - cbn [occurs]. intros [Hc Ha]%orb_false_elim.
    change (String c a +:+ String "=" b) with (String c (a +:+ String "=" b)).
    cbn [URLSearchParams.split_pair]. by rewrite Hc, IH.
Qed.

Lemma occurs_app (c : ascii) (a b : string) :
  occurs c (a +:+ b) = occurs c a || occurs c b.
Proof.
  induction a as [|d a IH]; [done|].
  change (String d a +:+ b) with (String d (a +:+ b)).
  cbn [occurs]. by rewrite IH, orb_assoc.
Qed.

Lemma split_join (sep : ascii) (l : list string) :
  l ≠ [] →
  Forall (λ x, occurs sep x = false) l →
  split sep (join (String sep "") l) = l.
Proof.
  induction l as [|x l IH]; [done|]. intros _ [Hx Hl]%Forall_cons.
  destruct l as [|y l].
  - by apply split_no_sep.
  - change (join (String sep "") (x :: y :: l))
      with (x +:+ String sep (join (String sep "") (y :: l))).
    rewrite split_app by done. by rewrite IH.
Qed.

Lemma filter_all {A} (P : A → Prop) `{∀ x, Decision (P x)} (l : list A) :
  Forall P l → filter P l = l.
Proof.
  induction 1 as [|x l Hx Hl IH]; [done|].
  rewrite filter_cons_True by done. by rewrite IH.
Qed.

(** Reading back the parameters that were written. *)
Lemma parse_toString (params : URLSearchParams.t) :
  URLSearchParams.parse ("?" +:+ URLSearchParams.toString params) = params.
Proof.
  unfold URLSearchParams.parse, URLSearchParams.toString.
  change ("?" +:+ ?q) with (String "?" q). cbv iota beta zeta.
  set (f := λ kv : string * string,
              URLSearchParams.serialize kv.1 +:+ String "=" (URLSearchParams.serialize kv.2)).
  destruct params as [|kv params]; [done|].
  rewrite split_join.
  - rewrite filter_all.
    + rewrite <- list_fmap_compose. rewrite <- (list_fmap_id (kv :: params)) at 2.
      apply list_fmap_ext. intros _ [k v] _. unfold f. cbn [compose fst snd].
      rewrite split_pair_app by apply serialize_plain.
      by rewrite !decode_serialize.
    + apply Forall_fmap, Forall_forall. intros [k v] _. unfold f. cbn [compose fst snd].
      by destruct (URLSearchParams.serialize k).
  - done.
  - apply Forall_fmap, Forall_forall. intros [k v] _. unfold f. cbn [compose fst snd].
    rewrite occurs_app. cbn [occurs].
    destruct (serialize_plain k) as [-> _], (serialize_plain v) as [-> _]. done.
Qed.

End UriFacts.

Section LinkProperties.
Context `{JsNumber}.

Lemma locationParam_fields (l : Location.t) :
  App.locationParam l
  = Number_toString (Location.lat l) +:+ String "|"
      (Number_toString (Location.lng l) +:+ String "|"
         (encodeURIComponent (Location.name l))).
Proof. reflexivity. Qed.

Lemma parseLocation_locationParam (l : Location.t) :
  Spec.printable_location l →
  App.parseLocation (App.locationParam l) = Normal l.
Proof.
  intros [[Hlat Hlat'] [Hlng Hlng']]. unfold App.parseLocation.
  rewrite locationParam_fields.
  rewrite split_app by done. rewrite split_app by done.
  rewrite split_no_sep by apply encodeURIComponent_no_bar.
  cbn [lookup list_lookup ToString]. rewrite decode_encodeURIComponent.
  cbn [mbind completion_bind mret completion_ret]. rewrite Hlat, Hlng.
  by destruct l.
Qed.

Lemma TransportMode_of_value (m : TransportMode) :
  App.TransportMode_of (App.TransportMode_value m) = Some m
  ∧ truthy (Some (App.TransportMode_value m)) = true.
Proof. by destruct m. Qed.

Lemma updateURL_get (s : App.State) :
  let params := URLSearchParams.parse (App.updateURL s) in
  URLSearchParams.get params "start" = App.locationParam <$> App.start s
  ∧ URLSearchParams.get params "end" = App.locationParam <$> App.end_ s
  ∧ URLSearchParams.get params "mode"
    = Some (App.TransportMode_value (App.transportMode s)).
Proof.
  cbv zeta. unfold App.updateURL. rewrite parse_toString. unfold App.updateURL_params.
  destruct (TransportMode_of_value (App.transportMode s)) as [_ ->].
  by destruct (App.start s), (App.end_ s).
Qed.

(** C8.  Writing the session into the query string of the link and
    loading a fresh application from that string gives back the start, the
    end (position and name) and the transport mode, provided the platform
    prints each coordinate without the field delimiter and parses it back
    to itself. *)
Theorem shareable_link_roundtrip (s : App.State) :
  (∀ l, App.start s = Some l ∨ App.end_ s = Some l → Spec.printable_location l) →
  let s' := App.loadFromURL (App.updateURL s) App.initial in
  App.start s' = App.start s
  ∧ App.end_ s' = App.end_ s
  ∧ App.transportMode s' = App.transportMode s.
Proof.
  intros Hprint. cbv zeta. unfold App.loadFromURL.
  destruct (updateURL_get s) as (-> & -> & ->).
  destruct (TransportMode_of_value (App.transportMode s)) as [Hm ->].
  cbn [ToString]. rewrite Hm.
  assert (∀ l, truthy (Some (App.locationParam l)) = true) as Htruthy.
  { intros l. rewrite locationParam_fields. apply truthy_app_sep. }
  destruct (App.start s) as [st|] eqn:Hst; destruct (App.end_ s) as [en|] eqn:Hen;
    cbn [fmap option_fmap option_map ToString];
    rewrite ?Htruthy, ?parseLocation_locationParam by (apply Hprint; auto);
    done.
Qed.

End LinkProperties.

Section MalformedLink.
Context `{JsNumber}.

(** C9.  What the loading effect does with fields that do not have the
    shape [lat|lng|name].  It never throws.  A mode that is not one of the
    three is ignored, and so is a location whose name is not a valid URI
    component; but a location field with too few parts or with text in
    place of the numbers is not ignored: the slot is set, from whatever
    [parseFloat] and the conversion of [undefined] to a string yield. *)
Theorem loadFromURL_on_malformed_fields (s : App.State) :
  App.start (App.loadFromURL "?start=abc" s)
  = Some (Location.mk (parseFloat "abc") (parseFloat "undefined") "undefined")
  ∧ App.end_ (App.loadFromURL "?end=abc%7Cdef" s)
    = Some (Location.mk (parseFloat "abc") (parseFloat "def") "undefined")
  ∧ App.loadFromURL "?start=1%7C2%7C%25zz" s = s
  ∧ App.loadFromURL "?mode=plane" s = s
  ∧ App.loadFromURL "?start=" s = s.
Proof.
  split_and!; try reflexivity; by destruct s.
Qed.

End MalformedLink.

(** ** Points of interest and the end coordinate *)

Section PoisProperties.
Context `{JsNumber}.

Lemma pois_target_fetchPois_start (w : App.World) :
  Spec.pois_target (App.fetchPois_start w)
  = match App.end_ (App.state w) with
    | Some e => Some e
    | None => match last (App.pendingPois w) with Some e => Some e | None => None end
    end.
Proof.
  unfold Spec.pois_target, App.fetchPois_start.
  destruct (App.end_ (App.state w)) as [e|]; cbn [App.pendingPois App.poisFor]; [|done].
  by rewrite last_snoc.
Qed.

(** The first part of [fetchPois] makes the POI list head for the current
    [end], as long as [end] is set. *)
Lemma fetchPois_start_target (w : App.World) (e : Location.t) :
  App.end_ (App.state w) = Some e →
  Spec.pois_target (App.fetchPois_start w) = App.end_ (App.state (App.fetchPois_start w)).
Proof.
  intros He. rewrite pois_target_fetchPois_start, fetchPois_start_end. by rewrite He.
Qed.

Lemma mount_target (params : string) :
  Spec.pois_target (App.mount params) = App.end_ (App.state (App.mount params)).
Proof.
  unfold App.mount. set (w := App.mkWorld _ _ _ _).
  destruct (App.end_ (App.state w)) as [e|] eqn:He.
  - by eapply fetchPois_start_target.
  - by rewrite He.
Qed.

Lemma step_target (w : App.World) (ev : App.Event) :
  Spec.in_order [ev] →
  Spec.pois_target w = App.end_ (App.state w) →
  Spec.pois_target (App.step w ev) = App.end_ (App.state (App.step w ev)).
Proof.
  intros Hev Hw. unfold Spec.in_order in Hev. rewrite Forall_singleton in Hev.
  destruct ev as [lat lng|i r|[] l|m|m|i r];
    cbn [App.step].
  - done.
  - destruct (App.pendingClicks w !! i) as [[[mode lat] lng]|]; [|done].
    rewrite click_result. cbv zeta. destruct mode; [done|].
    by eapply fetchPois_start_target.
  - done.
  - by eapply fetchPois_start_target.
  - done.
  - done.
  - cbn in Hev. subst i. destruct (App.pendingPois w) as [|e rest] eqn:Hp; [done|].
    cbn [lookup list_lookup delete list_delete].
    unfold Spec.pois_target, App.fetchPois_resume in *.
    rewrite Hp in Hw. rewrite last_cons in Hw.
    destruct (OsmService.getPOIs r); cbn [App.pendingPois App.poisFor App.state App.end_
      App.setIsLoadingPois App.setPois]; by destruct (last rest).
Qed.

Lemma run_target (evs : list App.Event) (w : App.World) :
  Spec.in_order evs →
  Spec.pois_target w = App.end_ (App.state w) →
  Spec.pois_target (App.run evs w) = App.end_ (App.state (App.run evs w)).
Proof.
  revert w. induction evs as [|ev evs IH]; intros w Hevs Hw; [done|].
  unfold Spec.in_order in *. apply Forall_cons in Hevs as [Hev Hevs].
  cbn [App.run fold_left]. apply IH; [done|].
  apply step_target; [by apply Forall_singleton|done].
Qed.

(** C1, as the code has it.  When the request of a waiting run of
    [fetchPois] settles, its answer is written to the POI list whatever the
    end coordinate is by then: the list is that of the request that settled
    last.  If the requests settle in the order they were started, then
    whenever none is waiting the list was written by the run started for
    the current end coordinate. *)
Theorem pois_follow_the_last_settled_request :
  (∀ (w : App.World) (i : nat) (e : Location.t)
     (response : completion (option OsmService.OverpassData)),
     App.pendingPois w !! i = Some e →
     let w' := App.step w (App.PoisSettled i response) in
     App.poisFor w' = Some e
     ∧ OsmService.getPOIs response = Normal (App.pois (App.state w'))
     ∧ App.end_ (App.state w') = App.end_ (App.state w))
  ∧ (∀ (params : string) (evs : list App.Event),
       Spec.in_order evs →
       let w := App.run evs (App.mount params) in
       App.pendingPois w = [] →
       App.poisFor w = App.end_ (App.state w)).
Proof.
  split.
  - intros w i e response Hi. cbv zeta. cbn [App.step]. rewrite Hi.
    unfold App.fetchPois_resume. cbn [App.poisFor App.state].
    split; [done|].
    unfold OsmService.getPOIs.
    destruct response as [[[[els|]]|]|err]; done.
  - intros params evs Hevs w Hp. subst w.
    pose proof (run_target evs _ Hevs (mount_target params)) as Ht.
    unfold Spec.pois_target in Ht. by rewrite Hp in Ht.
Qed.

End PoisProperties.

(** ** The routing machine *)

Section RoutingProperties.
Context `{JsNumber}.
Import MapComponent.

Lemma detach_detach (c : Control) : detach (detach c) = detach c.
Proof. done. Qed.

Lemma alter_detach_twice (c : nat) (l : list Control) :
  alter detach c (alter detach c l) = alter detach c l.
Proof.
  rewrite list_alter_alter_eq. apply list_alter_ext; [|done].
  intros x _. apply detach_detach.
Qed.

Lemma alter_attach_last (l : list Control) (n : nat) (c : Control) :
  length l = n → alter attach n (l ++ [c]) = l ++ [attach c].
Proof. intros <-. rewrite alter_app_r_alt by done. by rewrite Nat.sub_diag. Qed.

(** The machine after a render in which a dependency changed. *)
Lemma step_Render (m : Machine) (engine : Engine) (s e : option Location.t)
    (mode : TransportMode) :
  step m (Render engine s e mode)
  = match s, e, engine with
    | Some s', Some e', Loaded =>
        mkMachine None (Some (length (controls m)))
          (Spec.detached m ++ [Spec.control_for s' e' mode true]) true s e mode None
    | Some _, Some _, NotLoaded =>
        mkMachine None None (Spec.detached m) false s e mode None
    | _, _, _ =>
        mkMachine None None (Spec.detached m) true s e mode None
    end.
Proof.
  unfold step, ops_of, effect, cleanup, Spec.detached.
  destruct m as [summary0 [c|] ctrls [] start0 end0 mode0 from0];
    destruct s as [s'|], e as [e'|]; try destruct engine;
    cbn [perform fold_left app apply fst snd with_props routeSummary routingControlRef
         controls hasCleanup start end_ transportMode summaryFrom];
    rewrite ?alter_detach_twice, ?length_alter;
    rewrite ?alter_attach_last by (by rewrite ?length_alter); reflexivity.
Qed.

(** The machine after the component has been removed. *)
Lemma step_Unmount (m : Machine) :
  step m Unmount
  = mkMachine (routeSummary m) (routingControlRef m)
      (if hasCleanup m then Spec.detached m else controls m) false
      (start m) (end_ m) (transportMode m) (summaryFrom m).
Proof.
  unfold step, ops_of, cleanup, Spec.detached.
  by destruct m as [summary0 [c|] ctrls [] start0 end0 mode0 from0].
Qed.

(** The machine after a notification. *)
Lemma step_RoutesFound (m : Machine) (c : nat) (routes : option (list Route)) :
  step m (RoutesFound c routes)
  = match controls m !! c, routes with
    | Some _, Some (r :: _) =>
        mkMachine (Some (summary r)) (routingControlRef m) (controls m) (hasCleanup m)
          (start m) (end_ m) (transportMode m) (Some c)
    | _, _ => m
    end.
Proof.
  unfold step, ops_of.
  by destruct (controls m !! c), routes as [[|r rs]|].
Qed.

Lemma detached_off (m : Machine) (c : nat) (ctrl : Control) :
  Spec.overlay_current m →
  Spec.detached m !! c = Some ctrl → onMap ctrl = false.
Proof.
  intros [Hon _] Hc. unfold Spec.detached in Hc.
  destruct (routingControlRef m) as [r|] eqn:Hr.
  - destruct (decide (r = c)) as [->|Hne].
    + rewrite list_lookup_alter_eq in Hc.
      destruct (controls m !! c); by simplify_eq/=.
    + rewrite list_lookup_alter_ne in Hc by done.
      destruct (onMap ctrl) eqn:Hctrl; [|done].
      specialize (Hon _ _ Hc Hctrl). congruence.
  - destruct (onMap ctrl) eqn:Hctrl; [|done].
    specialize (Hon _ _ Hc Hctrl). congruence.
Qed.

Lemma detached_length (m : Machine) : length (Spec.detached m) = length (controls m).
Proof. unfold Spec.detached. destruct (routingControlRef m); by rewrite ?length_alter. Qed.

Lemma overlay_current_initial : Spec.overlay_current initial.
Proof. split; intros c; [intros ctrl|]; done. Qed.

Lemma overlay_current_step (m : Machine) (ev : Event) :
  Spec.overlay_current m → Spec.overlay_current (step m ev).
Proof.
  intros Hm. destruct ev as [engine s e mode|c routes|].
  - rewrite step_Render.
    assert (∀ c ctrl, Spec.detached m !! c = Some ctrl → onMap ctrl = false) as Hoff.
    { intros c ctrl. by apply detached_off. }
    destruct s as [s'|], e as [e'|]; try destruct engine;
      (split; cbn [controls routingControlRef start end_ transportMode];
       [intros c ctrl Hc Hon | intros c Hc]);
      try (by rewrite (Hoff _ _ Hc) in Hon); try done.
    + apply lookup_app_Some in Hc as [Hc|[Hlen Hc]].
      * by rewrite (Hoff _ _ Hc) in Hon.
      * rewrite detached_length in *.
        apply list_lookup_singleton_Some in Hc as [Hc _].
        f_equal. lia.
    + injection Hc as <-. eexists. split.
      * rewrite lookup_app_r by (by rewrite detached_length).
        by rewrite detached_length, Nat.sub_diag.
      * by exists s', e'.
  - rewrite step_RoutesFound. by destruct (controls m !! c), routes as [[|r rs]|].
  - rewrite step_Unmount. destruct Hm as [Hon Href].
    split; cbn [controls routingControlRef start end_ transportMode].
    + intros c ctrl Hc Hctrl. destruct (hasCleanup m); [|by eapply Hon].
      by rewrite (detached_off m c ctrl) in Hctrl.
    + intros c Hc. destruct (Href _ Hc) as (ctrl & Hctrl & Hfor).
      destruct (hasCleanup m); [|by eauto].
      unfold Spec.detached. rewrite Hc.
      exists (detach ctrl). by rewrite list_lookup_alter_eq, Hctrl.
Qed.

Lemma summary_from_ref_step (m : Machine) (ev : Event) :
  Spec.overlay_current m →
  Spec.summary_from_ref m →
  Spec.from_attached [ev] m →
  Spec.summary_from_ref (step m ev).
Proof.
  intros [Hon _] Hs [Hev _]. destruct ev as [engine s e mode|c routes|].
  - rewrite step_Render. intros sm.
    by destruct s as [s'|], e as [e'|]; try destruct engine.
  - rewrite step_RoutesFound.
    destruct (controls m !! c) as [ctrl|] eqn:Hc; [|done].
    destruct routes as [[|r rs]|]; try done.
    intros sm _. exists c. split; [done|]. cbn [routingControlRef].
    injection Hev as Hctrl. by eapply Hon.
  - rewrite step_Unmount. exact Hs.
Qed.

Lemma run_invariants (evs : list Event) (m : Machine) :
  Spec.overlay_current m →
  Spec.summary_from_ref m →
  Spec.from_attached evs m →
  Spec.overlay_current (run evs m) ∧ Spec.summary_from_ref (run evs m).
Proof.
  revert m. induction evs as [|ev evs IH]; intros m Ho Hs Hevs; [done|].
  destruct Hevs as [Hev Hevs]. cbn [run fold_left]. apply IH; [| |done].
  - by apply overlay_current_step.
  - by apply summary_from_ref_step.
Qed.

Lemma run_overlay_current (evs : list Event) (m : Machine) :
  Spec.overlay_current m → Spec.overlay_current (run evs m).
Proof.
  revert m. induction evs as [|ev evs IH]; intros m Ho; [done|].
  cbn [run fold_left]. apply IH. by apply overlay_current_step.
Qed.

Lemma summary_current_of_invariants (m : Machine) :
  Spec.overlay_current m → Spec.summary_from_ref m → Spec.summary_current m.
Proof.
  intros [_ Href] Hs sm Hsm.
  destruct (Hs _ Hsm) as (c & Hfrom & Hc).
  destruct (Href _ Hc) as (ctrl & Hctrl & Hfor). by exists c, ctrl.
Qed.

Lemma from_attached_app (evs1 evs2 : list Event) (m : Machine) :
  Spec.from_attached (evs1 ++ evs2) m
  ↔ Spec.from_attached evs1 m ∧ Spec.from_attached evs2 (run evs1 m).
Proof.
  revert m. induction evs1 as [|ev evs1 IH]; intros m; cbn [app Spec.from_attached].
  - cbn. tauto.
  - rewrite IH. cbn [run fold_left]. tauto.
Qed.

Lemma run_notifications (evs : list Event) (m : Machine) :
  Spec.notifications evs →
  routingControlRef (run evs m) = routingControlRef m.
Proof.
  revert m. induction evs as [|ev evs IH]; intros m Hn; [done|].
  apply Forall_cons in Hn as [Hev Hn].
  change (run (ev :: evs) m) with (run evs (step m ev)). rewrite IH by done.
  destruct ev as [| c routes |]; try done.
  rewrite step_RoutesFound. by destruct (controls m !! c), routes as [[|r rs]|].
Qed.

(** C2, as the code has it.  The ['routesfound'] handler stores the summary
    of the first route of every notification it receives, whichever control
    sent it; there is no check against the current inputs.  What the code
    does for superseded requests is to take their control off the map: as
    long as only a control that is on the map fires notifications, the
    summary on display was reported by the control created for the current
    start, end and transport mode. *)
Theorem summary_belongs_to_current_inputs :
  (∀ (m : Machine) (c : nat) (r : Route) (rs : list Route),
     is_Some (controls m !! c) →
     let m' := step m (RoutesFound c (Some (r :: rs))) in
     routeSummary m' = Some (summary r) ∧ summaryFrom m' = Some c)
  ∧ (∀ evs : list Event,
       Spec.from_attached evs initial →
       Spec.summary_current (run evs initial)).
Proof.
  split.
  - intros m c r rs [ctrl Hc]. cbv zeta. by rewrite step_RoutesFound, Hc.
  - intros evs Hevs.
    destruct (run_invariants evs initial) as [Ho Hs]; [|done|done|].
    + apply overlay_current_initial.
    + by apply summary_current_of_invariants.
Qed.

(** C3, as the code has it.  A render in which the start, the end or the
    transport mode changed empties the summary and takes every control
    created before off the map, and does both before it creates the control
    for the new inputs; no summary is on display after that step.  As long
    as only a control that is on the map fires notifications, any summary
    displayed by the notifications that follow comes from the control this
    render created. *)
Theorem summary_and_overlay_cleared_before_request
    (evs : list Event) (engine : Engine) (s e : option Location.t) (mode : TransportMode) :
  let m := run evs initial in
  let m' := step m (Render engine s e mode) in
  routeSummary m' = None
  ∧ (∀ c ctrl, (c < length (controls m))%nat →
               controls m' !! c = Some ctrl → onMap ctrl = false)
  ∧ (∀ pre ctrl post,
       ops_of (Render engine s e mode) m = pre ++ NewControl ctrl :: post →
       OnRouteFound None None ∈ pre
       ∧ (∀ r, routingControlRef m = Some r → RemoveControl r ∈ pre)
       ∧ (∀ ctrl', NewControl ctrl' ∉ pre))
  ∧ (∀ notes sm,
       Spec.notifications notes →
       Spec.from_attached (evs ++ Render engine s e mode :: notes) initial →
       routeSummary (run notes m') = Some sm →
       summaryFrom (run notes m') = Some (length (controls m))
       ∧ ∃ s' e', s = Some s' ∧ e = Some e'
                  ∧ controls m' !! length (controls m)
                    = Some (Spec.control_for s' e' mode true)).
Proof.
  cbv zeta. set (m := run evs initial).
  assert (Spec.overlay_current m) as Hm.
  { apply run_overlay_current, overlay_current_initial. }
  split_and!.
  - rewrite step_Render. by destruct s, e; try destruct engine.
  - intros c ctrl Hlt Hc. rewrite step_Render in Hc.
    assert (Spec.detached m !! c = Some ctrl) as Hd.
    { destruct s, e; try destruct engine; cbn [controls] in Hc; try done.
      rewrite lookup_app_l in Hc; [done|]. by rewrite detached_length. }
    by eapply detached_off.
  - intros pre ctrl post Hops.
    unfold ops_of, effect, cleanup in Hops.
    destruct m as [summary0 [c|] ctrls [] start0 end0 mode0 from0];
      destruct s as [s'|], e as [e'|]; try destruct engine;
      cbn [perform fold_left app apply fst routingControlRef hasCleanup controls] in Hops;
      repeat (destruct pre as [|? pre]; cbn [app] in Hops;
              [ try discriminate Hops
              | first [discriminate Hops | injection Hops as ? Hops; subst] ]);
      (split_and!;
       [ repeat first [apply list_elem_of_here | apply list_elem_of_further]
       | intros r Hr; try discriminate Hr; injection Hr as Hr; subst r;
         repeat first [apply list_elem_of_here | apply list_elem_of_further]
       | intros ctrl' Hin;
         repeat (apply elem_of_cons in Hin as [Hin|Hin]; [discriminate Hin|]);
         by apply elem_of_nil in Hin ]).
  - intros notes sm Hnotes Hatt Hsm.
    apply from_attached_app in Hatt as [Hevs [_ Hnotes']].
    fold (run evs initial) in Hnotes'. fold m in Hnotes'.
    set (m' := step m (Render engine s e mode)) in *.
    assert (Spec.overlay_current m') as Ho' by by apply overlay_current_step.
    assert (Spec.summary_from_ref m') as Hs'.
    { subst m'. rewrite step_Render. intros sm'.
      by destruct s, e; try destruct engine. }
    destruct (run_invariants notes m' Ho' Hs' Hnotes') as [_ Hs''].
    destruct (Hs'' _ Hsm) as (c & Hfrom & Hc).
    rewrite run_notifications in Hc by done.
    subst m'. rewrite Hfrom. rewrite step_Render in Hc |- *.
    destruct s as [s'|], e as [e'|]; try destruct engine;
      cbn [routingControlRef controls] in *; try done.
    split; [by injection Hc as <-|]. exists s', e'. split_and!; [done..|].
    rewrite lookup_app_r by (by rewrite detached_length).
    by rewrite detached_length, Nat.sub_diag.
Qed.

End RoutingProperties.

(** * The properties on the concrete scenario *)

Section Concrete.
#[local] Existing Instance IntegerNumber.integers.

(** The link of the scenario's session, field by field. *)
Example session_link :
  App.updateURL_params Scenario.session
  = [("start", "48|2|Paris");
     ("end", "43|7|Nice%20%7C%20C%C3%B4te%20d'Azur");
     ("mode", "bike")]
  ∧ App.updateURL Scenario.session
    = "?start=48%7C2%7CParis&end=43%7C7%7CNice%2520%257C%2520C%25C3%25B4te%2520d%27Azur&mode=bike".
Proof. split; reflexivity. Qed.

(** C8 on the scenario's session. *)
Lemma shareable_link_roundtrip_witness :
  let s' := App.loadFromURL (App.updateURL Scenario.session) App.initial in
  App.start s' = Some Scenario.paris
  ∧ App.end_ s' = Some Scenario.nice
  ∧ App.transportMode s' = bike.
Proof.
  apply (shareable_link_roundtrip Scenario.session).
  intros l [[= <-]|[= <-]]; by vm_compute.
Defined.

(** C7 with no key in the environment. *)
Lemma generateStoryStream_fails_fast_witness :
  GeminiService.generateStoryStream None (Normal Scenario.tale)
    Scenario.paris Scenario.nice [] Scenario.config
  = ([], Throw GeminiService.missing_key)
  ∧ ∀ s : App.State,
      Forall (λ op, ∀ a, op ≠ App.Client a)
        (App.handleGenerateStory None (Normal Scenario.tale) Scenario.config s).
Proof.
  apply (generateStoryStream_fails_fast None). reflexivity.
Defined.

(** C10 on the scenario's session and stream. *)
Lemma story_is_concatenation_of_fragments_witness :
  let ops :=
    App.handleGenerateStory (Some "key") (Normal Scenario.tale) Scenario.config
      Scenario.session in
  let delivered := GeminiService.chunks Scenario.tale in
  (∃ rest, ops = App.SetIsGenerating true :: App.SetStory "" :: rest)
  ∧ (∀ pre post,
       ops = pre ++ App.Await :: post →
       App.story (App.perform pre Scenario.session)
       = Spec.concatenation (Spec.fragments pre)
       ∧ App.isGenerating (App.perform pre Scenario.session) = true
       ∧ ∃ k, (k ≤ length delivered)%nat
              ∧ Spec.received pre = take k delivered
              ∧ App.story (App.perform pre Scenario.session)
                = Spec.concatenation (Spec.fragment <$> take k delivered))
  ∧ (∀ k, (k ≤ length delivered)%nat →
       ∃ pre post,
         ops = pre ++ App.Await :: post
         ∧ Spec.received pre = take k delivered
         ∧ App.story (App.perform pre Scenario.session)
           = Spec.concatenation (Spec.fragment <$> take k delivered))
  ∧ Spec.received ops = delivered.
Proof.
  apply (story_is_concatenation_of_fragments (Some "key") (Normal Scenario.tale)
           Scenario.config Scenario.session Scenario.paris Scenario.nice);
    reflexivity.
Defined.

(** The story of the scenario once the stream has ended. *)
Example story_of_tale :
  App.story
    (App.perform
       (App.handleGenerateStory (Some "key") (Normal Scenario.tale) Scenario.config
          Scenario.session)
       Scenario.session)
  = "Il était une fois".
Proof. reflexivity. Qed.

(** C1 fails on the code: the answer for Paris arrives after the end has
    become Lyon and after the answer for Lyon, and it is written to the POI
    list all the same. *)
Lemma stale_pois_are_applied :
  let w1 :=
    App.run [App.SearchFound sel_end Scenario.paris;
             App.SearchFound sel_end Scenario.lyon;
             App.PoisSettled 1 Scenario.lyon_answer] (App.mount "") in
  let w2 := App.step w1 (App.PoisSettled 0 Scenario.paris_answer) in
  App.end_ (App.state w1) = Some Scenario.lyon
  ∧ App.pendingPois w1 = [Scenario.paris]
  ∧ App.pois (App.state w1) = []
  ∧ App.end_ (App.state w2) = Some Scenario.lyon
  ∧ App.pendingPois w2 = []
  ∧ App.pois (App.state w2) = [OsmService.toPOI Scenario.louvre_node]
  ∧ App.poisFor w2 = Some Scenario.paris
  ∧ App.poisFor w2 ≠ App.end_ (App.state w2).
Proof. cbv zeta. split_and!; try reflexivity. discriminate. Qed.

(** C2 fails on the code: the route from Paris to Lyon by car is requested,
    then the walk from Paris to Nice; the walk is reported first, the drive
    afterwards, and the summary of the drive ends up on display. *)
Lemma late_summary_is_displayed :
  let m :=
    MapComponent.run
      [MapComponent.Render MapComponent.Loaded (Some Scenario.paris) (Some Scenario.lyon) car;
       MapComponent.Render MapComponent.Loaded (Some Scenario.paris) (Some Scenario.nice) foot;
       MapComponent.RoutesFound 1 (Some [Scenario.walk]);
       MapComponent.RoutesFound 0 (Some [Scenario.drive])]
      MapComponent.initial in
  MapComponent.routeSummary m = Some (MapComponent.summary Scenario.drive)
  ∧ MapComponent.summaryFrom m = Some 0%nat
  ∧ MapComponent.controls m !! 0%nat
    = Some (Spec.control_for Scenario.paris Scenario.lyon car false)
  ∧ MapComponent.end_ m = Some Scenario.nice
  ∧ MapComponent.transportMode m = foot
  ∧ ¬ Spec.summary_current m.
Proof.
  cbv zeta. split_and!; try reflexivity.
  intros Hcur. destruct (Hcur (MapComponent.summary Scenario.drive)) as
    (c & ctrl & Hfrom & Hctrl & s & e & _ & _ & _ & Hprofile & _); [reflexivity|].
  injection Hfrom as <-. injection Hctrl as <-. discriminate Hprofile.
Qed.

(** C3 fails on the code: the drive from Paris to Lyon is on display, the
    mode changes to walking, and a further notification of the control of
    the drive puts a summary for driving back on display. *)
Lemma superseded_summary_is_displayed :
  let m :=
    MapComponent.run
      [MapComponent.Render MapComponent.Loaded (Some Scenario.paris) (Some Scenario.lyon) car;
       MapComponent.RoutesFound 0 (Some [Scenario.drive]);
       MapComponent.Render MapComponent.Loaded (Some Scenario.paris) (Some Scenario.lyon) foot;
       MapComponent.RoutesFound 0 (Some [Scenario.drive])]
      MapComponent.initial in
  MapComponent.routeSummary m = Some (MapComponent.summary Scenario.drive)
  ∧ MapComponent.summaryFrom m = Some 0%nat
  ∧ (MapComponent.profile <$> MapComponent.controls m !! 0%nat) = Some "driving"
  ∧ (MapComponent.onMap <$> MapComponent.controls m !! 0%nat) = Some false
  ∧ MapComponent.transportMode m = foot
  ∧ MapComponent.profile_of (MapComponent.transportMode m) = "walking"
  ∧ ¬ Spec.summary_current m.
Proof.
  cbv zeta. split_and!; try reflexivity.
  intros Hcur. destruct (Hcur (MapComponent.summary Scenario.drive)) as
    (c & ctrl & Hfrom & Hctrl & s & e & _ & _ & _ & Hprofile & _); [reflexivity|].
  injection Hfrom as <-. injection Hctrl as <-. discriminate Hprofile.
Qed.

(** The amended C1 and C2 on runs of the scenario in which every answer
    arrives in time: the hypotheses of the theorems hold there. *)
Example in_order_run :
  let evs := [App.SearchFound sel_end Scenario.paris;
              App.SearchFound sel_end Scenario.lyon;
              App.PoisSettled 0 Scenario.paris_answer;
              App.PoisSettled 0 Scenario.lyon_answer] in
  Spec.in_order evs
  ∧ App.pendingPois (App.run evs (App.mount "")) = []
  ∧ App.poisFor (App.run evs (App.mount "")) = Some Scenario.lyon.
Proof. cbv zeta. split_and!; [by repeat constructor|reflexivity..]. Qed.

Example attached_run :
  let evs :=
    [MapComponent.Render MapComponent.Loaded (Some Scenario.paris) (Some Scenario.lyon) car;
     MapComponent.Render MapComponent.Loaded (Some Scenario.paris) (Some Scenario.nice) foot;
     MapComponent.RoutesFound 1 (Some [Scenario.walk])] in
  Spec.from_attached evs MapComponent.initial
  ∧ MapComponent.routeSummary (MapComponent.run evs MapComponent.initial)
    = Some (MapComponent.summary Scenario.walk)
  ∧ MapComponent.summaryFrom (MapComponent.run evs MapComponent.initial) = Some 1%nat.
Proof. cbv zeta. split_and!; [by repeat split|reflexivity..]. Qed.

(** C5 on the Louvre: the query matched its [tourism] tag, and that is
    its category. *)
Example category_of_the_tag_that_matched :
  let tags := default ∅ (OsmService.el_tags Scenario.louvre_node) in
  Spec.matched tags = ["museum"]
  ∧ POI.type (OsmService.toPOI Scenario.louvre_node) = "museum".
Proof. split; reflexivity. Qed.

(** C5: the category of a node the query found through its [historic] tag
    only is the value of its [tourism] tag, which did not match. *)
Lemma category_of_a_tag_that_did_not_match :
  let tags := default ∅ (OsmService.el_tags Scenario.castle_hotel) in
  Spec.matched tags = ["castle"]
  ∧ Spec.matched_tag tags OsmService.tourism_filter = None
  ∧ ∃ poi,
      OsmService.getPOIs
        (Normal (Some (OsmService.mkOverpassData (Some [Scenario.castle_hotel]))))
      = Normal [poi]
      ∧ POI.type poi = "hotel"
      ∧ POI.type poi ∉ Spec.matched tags.
Proof.
  split; [reflexivity|]. split; [reflexivity|].
  exists (OsmService.toPOI Scenario.castle_hotel).
  split; [reflexivity|]. split; [reflexivity|].
  change ("hotel" ∉ ["castle"]).
  intros Hin. apply elem_of_cons in Hin as [Hin|Hin]; [discriminate|].
  by apply elem_of_nil in Hin.
Qed.

End Concrete.

(** * Further properties of the services *)

Section ServiceProperties.
Context `{JsNumber}.
Import OsmService.

Lemma getPOIs_result (response : completion (option OverpassData)) :
  getPOIs response
  = Normal match response with
           | Normal (Some d) =>
               match elements d with
               | Some els => filter named (toPOI <$> els)
               | None => []
               end
           | _ => []
           end.
Proof.
  unfold getPOIs. destruct response as [[d|]|e]; [|done..].
  cbn [mbind completion_bind]. by destruct (elements d).
Qed.

(** X1.  [getPOIs] completes normally for every outcome of its request: a
    failed request, a null answer or an answer without elements give the
    empty list, and an answer with elements gives at most as many records
    as it has elements.  A run of [fetchPois] therefore always stores the
    list [getPOIs] returned and clears the loading flag. *)
Theorem getPOIs_never_throws (response : completion (option OverpassData)) :
  ∃ l,
    getPOIs response = Normal l
    ∧ (∀ e, response = Throw e → l = [])
    ∧ (response = Normal None → l = [])
    ∧ (∀ d, response = Normal (Some d) → elements d = None → l = [])
    ∧ (∀ d els, response = Normal (Some d) → elements d = Some els →
                (length l ≤ length els)%nat)
    ∧ (∀ w e,
         App.pois (App.state (App.fetchPois_resume e response w)) = l
         ∧ App.isLoadingPois (App.state (App.fetchPois_resume e response w)) = false).
Proof.
  eexists. split; [apply getPOIs_result|]. split_and!.
  - by intros e ->.
  - by intros ->.
  - by intros d -> ->.
  - intros d els -> ->. etrans; [apply length_filter|]. by rewrite length_fmap.
  - intros w e. unfold App.fetchPois_resume. by rewrite getPOIs_result.
Qed.

Lemma present_union_nonempty (tags : gmap string string) (k1 k2 d : string) :
  d ≠ "" → default d (Spec.present tags k1 ∪ Spec.present tags k2) ≠ "".
Proof.
  intros Hd.
  destruct (Spec.present tags k1) as [v1|] eqn:H1;
    destruct (Spec.present tags k2) as [v2|] eqn:H2.
  - change (v1 ≠ ""). by eapply present_nonempty.
  - change (v1 ≠ ""). by eapply present_nonempty.
  - change (v2 ≠ ""). by eapply present_nonempty.
  - exact Hd.
Qed.

(** X2.  Every record [getPOIs] returns for an answer with elements has a
    name and a category that are not empty, and carries the identifier and
    the position of one of the nodes of the answer. *)
Theorem getPOIs_records_come_from_nodes (els : list Element) :
  ∃ result,
    getPOIs (Normal (Some (mkOverpassData (Some els)))) = Normal result
    ∧ Forall (λ poi,
        POI.name poi ≠ "" ∧ POI.type poi ≠ ""
        ∧ ∃ el, el ∈ els ∧ POI.id poi = el_id el
                ∧ POI.lat poi = el_lat el ∧ POI.lng poi = el_lon el) result.
Proof.
  eexists. split; [apply getPOIs_result|]. cbn [elements].
  apply Forall_forall. intros poi [_ Hin]%list_elem_of_filter.
  apply list_elem_of_fmap in Hin as (el & -> & Hel).
  destruct (toPOI_derived el) as (Hname & Htype & _).
  split_and!.
  - rewrite Hname. by apply present_union_nonempty.
  - rewrite Htype. by apply present_union_nonempty.
  - by exists el.
Qed.

Lemma first_segment_no_comma (s : string) :
  occurs "," (Spec.first_segment s) = false.
Proof.
  induction s as [|c s IH]; [done|]. cbn [Spec.first_segment].
  destruct (Ascii.eqb c ",") eqn:Hc; [done|]. cbn [occurs]. by rewrite Hc, IH.
Qed.

(** X3.  The name [reverseGeocode] returns never contains a comma: it is
    the part of the display name before its first comma when the answer
    carries a display name, and the placeholder otherwise (a failed
    request, an answer without a display name that is a string). *)
Theorem reverseGeocode_name_has_no_comma (response : completion Value) :
  ∃ name,
    reverseGeocode response = Normal name
    ∧ occurs "," name = false
    ∧ (∀ display_name, Spec.display_name_of response = Some display_name →
         ∃ rest, display_name = name +:+ rest
                 ∧ (rest = "" ∨ ∃ rest', rest = String "," rest'))
    ∧ (Spec.display_name_of response = None → name = unknown_place).
Proof.
  eexists. split; [apply reverseGeocode_spec|].
  destruct (Spec.display_name_of response) as [dn|]; cbn [from_option].
  - split; [apply first_segment_no_comma|]. split; [|done].
    intros ? [= <-]. induction dn as [|c dn (rest & IH & Hrest)].
    + exists "". by split; [|left].
    + cbn [Spec.first_segment]. destruct (Ascii.eqb_spec c ",") as [->|Hc].
      * exists (String "," dn). split; [done|]. right. by eexists.
      * exists rest. split; [|done].
        change (String c (Spec.first_segment dn) +:+ rest)
          with (String c (Spec.first_segment dn +:+ rest)).
        by rewrite <- IH.
  - split; [done|]. split; [by intros|done].
Qed.

End ServiceProperties.

(** * Further properties of the sidebar *)

Section SearchProperties.
Context `{JsNumber}.

Lemma searchLocation_result (response : completion (list NominatimResult.t)) :
  OsmService.searchLocation response
  = Normal match response with
           | Normal results => results
           | Throw _ => []
           end.
Proof. by destruct response. Qed.


(** X4.  [handleSearch] never throws.  With an empty query it sends nothing
    to the geocoder and leaves the state as it is; when the request fails
    ([searchLocation] catches the failure and answers with no result) or
    finds nothing, the state is left as it is too. *)
Theorem handleSearch_without_result {S : Type} (setStart setEnd : Location.t → S → S)
    (query : string) (type : SelectionMode)
    (response : completion (list NominatimResult.t)) (s : S) :
  (∃ s', (Sidebar.handleSearch setStart setEnd query type response s).2 = Normal s')
  ∧ (query = "" →
     Sidebar.handleSearch setStart setEnd query type response s = ([], Normal s))
  ∧ (∀ e, response = Throw e →
          (Sidebar.handleSearch setStart setEnd query type response s).2 = Normal s)
  ∧ (response = Normal [] →
     (Sidebar.handleSearch setStart setEnd query type response s).2 = Normal s).
Proof.
  unfold Sidebar.handleSearch. rewrite searchLocation_result.
  split_and!.
  - destruct (truthy (Some query)); cbn [negb snd]; [|by eauto].
    destruct response as [[|best rest]|e]; cbn [mbind completion_bind];
      destruct type; by eauto.
  - by intros ->.
  - intros e ->. by destruct (truthy (Some query)).
  - intros ->. by destruct (truthy (Some query)).
Qed.


End SearchProperties.

(** * Further properties of the application *)

Section GenerationOutcome.
Context `{JsNumber}.

Lemma consume_outcome (chunks : list GeminiService.Chunk) (failure : option Error)
    (fullStory : string) (s : App.State) :
  App.story s = fullStory →
  let s' := App.perform (App.consume chunks failure fullStory) s in
  App.isGenerating s' = false
  ∧ App.story s'
    = match failure with
      | None =>
          fullStory +:+ Spec.concatenation
                          ((λ c, default "" (GeminiService.text c)) <$> chunks)
      | Some _ => App.apology
      end
  ∧ Spec.same_trip s s'.
Proof.
  revert fullStory s. induction chunks as [|chunk rest IH]; intros fullStory s Hs.
  - cbn [App.consume]. destruct failure; cbn; rewrite ?append_nil_r;
      (split_and!; [done|done|by repeat split]).
  - cbn [App.consume]. pose proof (chunk_text chunk) as Htext.
    destruct (truthy (GeminiService.text chunk)).
    + rewrite perform_app.
      set (s1 := App.perform _ s).
      destruct (IH (fullStory +:+ ToString (GeminiService.text chunk)) s1)
        as (H1 & H2 & H3); [by subst s1; cbn|].
      split_and!; [done| |by subst s1].
      rewrite H2. destruct failure; [done|].
      rewrite fmap_cons. cbn [Spec.concatenation foldr].
      by rewrite Htext, append_assoc.
    + rewrite perform_app.
      destruct (IH fullStory (App.perform [App.Receive chunk; App.Await] s))
        as (H1 & H2 & H3); [done|].
      split_and!; [done| |done].
      rewrite H2. destruct failure; [done|].
      rewrite fmap_cons. cbn [Spec.concatenation foldr]. by rewrite <- Htext.
Qed.

(** X6.  However a story generation started with both waypoints goes, it
    ends with the generation flag cleared and with the slots of the trip
    untouched.  The story is the concatenation of all the fragments of the
    stream when the key is there, the service answers and the stream ends
    without an error; in every other case it is the apology.  Without both
    waypoints the function does nothing. *)
Theorem story_generation_outcome (API_KEY : option string)
    (service : completion GeminiService.Stream) (config : StoryConfig) (s : App.State) :
  let ops := App.handleGenerateStory API_KEY service config s in
  let s' := App.perform ops s in
  match App.start s, App.end_ s with
  | Some _, Some _ =>
      App.isGenerating s' = false
      ∧ App.story s'
        = match truthy API_KEY, service with
          | true, Normal stream =>
              match GeminiService.failure stream with
              | None => Spec.concatenation (Spec.stream_fragments stream)
              | Some _ => App.apology
              end
          | _, _ => App.apology
          end
      ∧ Spec.same_trip s s'
  | _, _ => ops = []
  end.
Proof.
  cbv zeta. unfold App.handleGenerateStory.
  destruct (App.start s) as [st|] eqn:Hst; [|done].
  destruct (App.end_ s) as [en|] eqn:Hen; [|done].
  unfold GeminiService.generateStoryStream.
  destruct (truthy API_KEY); cbn [negb].
  - destruct service as [stream|e]; cbn [try_catch].
    + pose proof (consume_outcome (GeminiService.chunks stream)
                    (GeminiService.failure stream) ""
                    (App.setStory "" (App.setIsGenerating true s)) eq_refl)
        as (H1 & H2 & H3).
      split_and!.
      * exact H1.
      * etrans; [exact H2|]. by destruct (GeminiService.failure stream).
      * exact H3.
    + by repeat split.
  - by repeat split.
Qed.

End GenerationOutcome.

Section LoadingFlag.
Context `{JsNumber}.

Lemma loading_fetchPois_start (w : App.World) :
  Spec.loading_is_pending w → Spec.loading_is_pending (App.fetchPois_start w).
Proof.
  unfold Spec.loading_is_pending, App.fetchPois_start. intros Hw.
  destruct (App.end_ (App.state w)) as [e|]; cbn.
  - intros _. by destruct (App.pendingPois w).
  - exact Hw.
Qed.

Lemma loading_with_state (w : App.World) (s : App.State) :
  App.isLoadingPois s = App.isLoadingPois (App.state w) →
  Spec.loading_is_pending w → Spec.loading_is_pending (App.with_state s w).
Proof. unfold Spec.loading_is_pending. cbn. by intros ->. Qed.

Lemma loading_mount (params : string) : Spec.loading_is_pending (App.mount params).
Proof.
  unfold App.mount. set (w := App.mkWorld _ _ _ _).
  assert (Spec.loading_is_pending w) as Hw.
  { subst w. unfold Spec.loading_is_pending. cbn [App.state App.pendingPois].
    unfold App.loadFromURL.
    repeat (case_match; cbn [App.isLoadingPois App.setStart App.setEnd
                             App.setTransportMode]); done. }
  destruct (App.end_ (App.state w)); [|done]. by apply loading_fetchPois_start.
Qed.

Lemma loading_step (w : App.World) (ev : App.Event) :
  Spec.loading_is_pending w → Spec.loading_is_pending (App.step w ev).
Proof.
  intros Hw. destruct ev as [lat lng|i r|[] l|m|m|i r]; cbn [App.step].
  - exact Hw.
  - destruct (App.pendingClicks w !! i) as [[[mode lat] lng]|]; [|done].
    rewrite click_result. cbv zeta.
    destruct mode; [|apply loading_fetchPois_start]; by apply loading_with_state.
  - by apply loading_with_state.
  - apply loading_fetchPois_start. by apply loading_with_state.
  - by apply loading_with_state.
  - by apply loading_with_state.
  - destruct (App.pendingPois w !! i); [|done].
    unfold Spec.loading_is_pending, App.fetchPois_resume.
    by destruct (OsmService.getPOIs r).
Qed.

(** X7.  In every state the application reaches, a set loading flag means
    that a POI request is waiting.  The converse does not hold: the
    settlement of any one request clears the flag, whether or not other
    requests are still waiting. *)
Theorem loading_flag_means_pending_request (params : string) (evs : list App.Event) :
  let w := App.run evs (App.mount params) in
  (App.isLoadingPois (App.state w) = true → App.pendingPois w ≠ [])
  ∧ (∀ i e response,
       App.pendingPois w !! i = Some e →
       let w' := App.step w (App.PoisSettled i response) in
       App.isLoadingPois (App.state w') = false
       ∧ App.pendingPois w' = delete i (App.pendingPois w)).
Proof.
  cbv zeta. split.
  - generalize (loading_mount params). generalize (App.mount params).
    induction evs as [|ev evs IH]; intros w Hw; [done|].
    cbn [App.run fold_left]. apply IH. by apply loading_step.
  - intros i e response Hi. cbn [App.step]. rewrite Hi.
    unfold App.fetchPois_resume. by destruct (OsmService.getPOIs response).
Qed.

End LoadingFlag.

Section OverlappingClicks.
Context `{JsNumber}.

Lemma click_all_spec (cs : list (number * number * completion Value)) (w : App.World) :
  App.state (Spec.click_all cs w) = App.state w
  ∧ App.pendingPois (Spec.click_all cs w) = App.pendingPois w
  ∧ App.poisFor (Spec.click_all cs w) = App.poisFor w
  ∧ App.pendingClicks (Spec.click_all cs w)
    = App.pendingClicks w
      ++ ((λ c, (App.selectionMode (App.state w), c.1.1, c.1.2)) <$> cs).
Proof.
  revert w. induction cs as [|c cs IH]; intros w.
  - cbn. by rewrite app_nil_r.
  - change (Spec.click_all (c :: cs) w)
      with (Spec.click_all cs (App.step w (App.MapClick c.1.1 c.1.2))).
    destruct (IH (App.step w (App.MapClick c.1.1 c.1.2))) as (-> & -> & -> & ->).
    cbn [App.step App.state App.pendingPois App.poisFor App.pendingClicks].
    split_and!; try done. by rewrite <- app_assoc.
Qed.

Lemma settle_all_start (cs : list (number * number * completion Value)) (w : App.World) :
  App.pendingClicks w = (λ c, (sel_start, c.1.1, c.1.2)) <$> cs →
  App.pendingClicks (Spec.settle_all cs w) = []
  ∧ App.end_ (App.state (Spec.settle_all cs w)) = App.end_ (App.state w)
  ∧ App.pendingPois (Spec.settle_all cs w) = App.pendingPois w
  ∧ ∀ c, last cs = Some c →
         App.start (App.state (Spec.settle_all cs w)) = Some (Spec.clicked c)
         ∧ App.selectionMode (App.state (Spec.settle_all cs w)) = sel_end.
Proof.
  revert w. induction cs as [|c cs IH]; intros w Hp; [by split_and!|].
  change (Spec.settle_all (c :: cs) w)
    with (Spec.settle_all cs (App.step w (App.GeocodeSettled 0 c.2))).
  set (w1 := App.step w (App.GeocodeSettled 0 c.2)).
  assert (App.pendingClicks w !! 0%nat = Some (sel_start, c.1.1, c.1.2)) as H0.
  { by rewrite Hp. }
  pose proof (step_GeocodeSettled w 0 _ _ _ c.2 H0) as Hstep.
  cbv beta iota zeta in Hstep. fold w1 in Hstep. destruct Hstep as (Hst & Hen & Hsel).
  assert (App.pendingClicks w1 = (λ c, (sel_start, c.1.1, c.1.2)) <$> cs
          ∧ App.pendingPois w1 = App.pendingPois w) as [Hp1 Hpp].
  { subst w1. cbn [App.step]. rewrite H0, click_result. cbv zeta.
    cbn [App.with_state App.pendingClicks App.pendingPois]. by rewrite Hp. }
  destruct (IH w1 Hp1) as (IH1 & IH2 & IH3 & IH4).
  split_and!; [done|congruence|congruence|].
  intros c' Hlast. rewrite last_cons in Hlast.
  destruct (last cs) as [c''|] eqn:Hcs.
  - by apply IH4.
  - injection Hlast as <-. destruct cs; [|by rewrite last_cons in Hcs; destruct (last cs)].
    change (Spec.settle_all [] w1) with w1.
    split; [|done]. rewrite Hst. by destruct c as [[lat lng] r].
Qed.

(** X8.  Clicks made while the selection mode is ['start'] and before the
    request of the first of them has settled all close over ['start']: when
    their requests settle in order, each sets the start, none sets the end
    or starts a POI request, and the start is the place of the last
    click. *)
Theorem overlapping_clicks_all_set_the_start
    (cs : list (number * number * completion Value)) (w : App.World) :
  App.selectionMode (App.state w) = sel_start →
  App.pendingClicks w = [] →
  let w' := Spec.settle_all cs (Spec.click_all cs w) in
  App.pendingClicks w' = []
  ∧ App.end_ (App.state w') = App.end_ (App.state w)
  ∧ App.pendingPois w' = App.pendingPois w
  ∧ ∀ c, last cs = Some c →
         App.start (App.state w') = Some (Spec.clicked c)
         ∧ App.selectionMode (App.state w') = sel_end.
Proof.
  intros Hsel Hp. cbv zeta.
  destruct (click_all_spec cs w) as (Hs & Hpp & _ & Hpc).
  rewrite Hp, Hsel in Hpc. cbn [app] in Hpc.
  destruct (settle_all_start cs _ Hpc) as (H1 & H2 & H3 & H4).
  rewrite Hs in H2. rewrite Hpp in H3. by split_and!.
Qed.

End OverlappingClicks.

Section LinkLoading.
Context `{JsNumber}.

Lemma TransportMode_of_exact (modeParam : string) (m : TransportMode) :
  App.TransportMode_of modeParam = Some m ↔ modeParam = App.TransportMode_value m.
Proof.
  unfold App.TransportMode_of. split.
  - destruct (String.eqb_spec modeParam "car"); [by intros [= <-]|].
    destruct (String.eqb_spec modeParam "bike"); [by intros [= <-]|].
    destruct (String.eqb_spec modeParam "foot"); [by intros [= <-]|done].
  - intros ->. by destruct m.
Qed.

(** X9.  Loading the state from the address never throws and changes
    nothing but the start, the end and the transport mode.  The mode
    changes only to the value of a [mode] parameter that is exactly one of
    "car", "bike" and "foot"; a slot changes only to the location parsed
    from a parameter of its name that is not empty. *)
Theorem loadFromURL_changes_only_the_trip (search : string) (s : App.State) :
  let s' := App.loadFromURL search s in
  let params := URLSearchParams.parse search in
  App.pois s' = App.pois s
  ∧ App.focusedPoi s' = App.focusedPoi s
  ∧ App.selectionMode s' = App.selectionMode s
  ∧ App.story s' = App.story s
  ∧ App.isGenerating s' = App.isGenerating s
  ∧ App.isLoadingPois s' = App.isLoadingPois s
  ∧ (App.transportMode s' = App.transportMode s
     ∨ URLSearchParams.get params "mode"
       = Some (App.TransportMode_value (App.transportMode s')))
  ∧ (App.start s' = App.start s
     ∨ ∃ p l, URLSearchParams.get params "start" = Some p ∧ p ≠ ""
              ∧ App.parseLocation p = Normal l ∧ App.start s' = Some l)
  ∧ (App.end_ s' = App.end_ s
     ∨ ∃ p l, URLSearchParams.get params "end" = Some p ∧ p ≠ ""
              ∧ App.parseLocation p = Normal l ∧ App.end_ s' = Some l).
Proof.
  cbv zeta. unfold App.loadFromURL.
  set (params := URLSearchParams.parse search).
  assert (∀ o : option string, truthy o = true → ∃ p, o = Some p ∧ p ≠ "") as Htruthy.
  { intros [p|] Hp; [|done]. exists p. split; [done|].
    intros ->. by cbn in Hp. }
  destruct (truthy (URLSearchParams.get params "start")) eqn:Hs;
    [apply Htruthy in Hs as (ps & Hs & Hps); rewrite Hs; cbn [ToString];
     destruct (App.parseLocation ps) as [ls|] eqn:Hls|];
  (destruct (truthy (URLSearchParams.get params "end")) eqn:He;
    [apply Htruthy in He as (pe & He & Hpe); rewrite He; cbn [ToString];
     destruct (App.parseLocation pe) as [le|] eqn:Hle|]);
  (destruct (truthy (URLSearchParams.get params "mode")) eqn:Hm;
    [apply Htruthy in Hm as (pm & Hm & Hpm); rewrite Hm; cbn [ToString];
     destruct (App.TransportMode_of pm) as [m|] eqn:Hpm';
     [apply TransportMode_of_exact in Hpm' as ->|]|]);
  cbn [App.pois App.focusedPoi App.selectionMode App.story App.isGenerating
       App.isLoadingPois App.transportMode App.start App.end_
       App.setStart App.setEnd App.setTransportMode];
  split_and!; try done; eauto 10.
Qed.

Lemma updateURL_params_list (s : App.State) :
  App.updateURL_params s
  = option_list ((λ l, ("start", App.locationParam l)) <$> App.start s)
    ++ option_list ((λ l, ("end", App.locationParam l)) <$> App.end_ s)
    ++ [("mode", App.TransportMode_value (App.transportMode s))].
Proof.
  unfold App.updateURL_params.
  destruct (TransportMode_of_value (App.transportMode s)) as [_ ->].
  by destruct (App.start s), (App.end_ s).
Qed.

(** X10.  The query string the update effect writes always carries the
    transport mode, and carries a [start] and an [end] parameter exactly
    when the slot is set: read back with [URLSearchParams], each parameter
    is the field the effect built for it. *)
Theorem link_carries_the_state (s : App.State) :
  let params := URLSearchParams.parse (App.updateURL s) in
  URLSearchParams.get params "mode"
  = Some (App.TransportMode_value (App.transportMode s))
  ∧ URLSearchParams.get params "start" = App.locationParam <$> App.start s
  ∧ URLSearchParams.get params "end" = App.locationParam <$> App.end_ s
  ∧ (length params ≤ 3)%nat
  ∧ ∀ name, is_Some (URLSearchParams.get params name) →
            name = "start" ∨ name = "end" ∨ name = "mode".
Proof.
  cbv zeta. destruct (updateURL_get s) as (Hst & Hen & Hmode).
  split_and!; [done..| |];
    unfold App.updateURL; rewrite parse_toString, updateURL_params_list.
  - destruct (App.start s), (App.end_ s); cbn; lia.
  - intros name.
    destruct (App.start s), (App.end_ s);
      cbn -[String.eqb];
      repeat match goal with
             | |- context [String.eqb ?k name] =>
                 destruct (String.eqb_spec k name) as [<-|?]; [by auto|]
             end;
      by intros [? ?].
Qed.

End LinkLoading.

(** * Further properties of the map *)

Section OverlayProperties.
Context `{JsNumber}.
Import MapComponent.

(** X11.  In every state of the routing machine, whatever the engine and
    the order of the notifications, at most one routing control is on the
    map: the one the ref points to, and it was created for the start, the
    end and the transport mode of the last render.  The route drawn never
    belongs to superseded inputs. *)
Theorem at_most_one_current_overlay (evs : list Event) :
  let m := run evs initial in
  (∀ c1 c2, Spec.attached m c1 → Spec.attached m c2 → c1 = c2)
  ∧ (∀ c ctrl, controls m !! c = Some ctrl → onMap ctrl = true →
       routingControlRef m = Some c
       ∧ Spec.created_for ctrl (start m) (end_ m) (transportMode m)).
Proof.
  cbv zeta.
  destruct (run_overlay_current evs initial overlay_current_initial) as [Hon Href].
  split.
  - intros c1 c2 (ctrl1 & H1 & Hon1) (ctrl2 & H2 & Hon2).
    pose proof (Hon _ _ H1 Hon1). pose proof (Hon _ _ H2 Hon2). congruence.
  - intros c ctrl Hc Hctrl. pose proof (Hon _ _ Hc Hctrl) as Hr.
    split; [done|]. destruct (Href _ Hr) as (ctrl' & Hc' & Hfor). congruence.
Qed.




(** X13.  The three transport modes have three different routing profiles
    and three different line colours, and the profile of a mode is one of
    the profiles of the routing service. *)
Theorem profile_and_colour_distinguish_modes :
  (∀ m1 m2, profile_of m1 = profile_of m2 → m1 = m2)
  ∧ (∀ m1 m2, color_of m1 = color_of m2 → m1 = m2)
  ∧ (∀ m, profile_of m ∈ ["driving"; "cycling"; "walking"])
  ∧ profile_of car = "driving" ∧ profile_of bike = "cycling"
  ∧ profile_of foot = "walking".
Proof.
  split_and!; try done.
  - by intros [] [].
  - by intros [] [].
  - intros []; cbn; set_solver.
Qed.

End OverlayProperties.

Section BoundsProperties.
Context `{JsNumber}.
Variable isNaN : number → bool.
Import MapComponent.

Lemma extended_numeric (points bounds : list (number * number)) :
  Forall (Spec.numeric isNaN) points →
  Spec.extended isNaN points bounds = Normal (bounds ++ points).
Proof.
  intros Hnum. revert bounds.
  induction Hnum as [|[lat lng] points [Hlat Hlng] _ IH]; intros bounds.
  - by rewrite app_nil_r.
  - cbn [Spec.extended]. unfold extend. cbn [fst snd] in Hlat, Hlng.
    rewrite Hlat, Hlng. cbn. by rewrite IH, <- app_assoc.
Qed.

Lemma extended_not_numeric (before after bounds : list (number * number))
    (lat lng : number) :
  Forall (Spec.numeric isNaN) before →
  isNaN lat || isNaN lng = true →
  Spec.extended isNaN (before ++ (lat, lng) :: after) bounds
  = Throw (invalid_LatLng lat lng).
Proof.
  intros Hnum Hnan. revert bounds.
  induction Hnum as [|[lat' lng'] before [Hlat Hlng] _ IH]; intros bounds.
  - cbn [app Spec.extended]. unfold extend. by rewrite Hnan.
  - cbn [app Spec.extended]. unfold extend. cbn [fst snd] in Hlat, Hlng.
    rewrite Hlat, Hlng. cbn. apply IH.
Qed.

Lemma extend_pois_extended (pois : list POI.t) (bounds : list (number * number))
    (hasPoints : bool) :
  extend_pois isNaN pois (bounds, hasPoints)
  = bounds' ← Spec.extended isNaN ((λ p, (POI.lat p, POI.lng p)) <$> pois) bounds;
    mret (bounds', hasPoints || (0 <? length pois)%nat).
Proof.
  revert bounds hasPoints. induction pois as [|poi pois IH]; intros bounds hasPoints.
  - cbn. by rewrite orb_false_r.
  - cbn [extend_pois fmap list_fmap Spec.extended fst].
    destruct (extend isNaN bounds (POI.lat poi) (POI.lng poi)) as [bounds'|e]; [|done].
    cbn [mbind completion_bind]. rewrite IH. cbn. by rewrite orb_true_r.
Qed.

(** The effect extends the bounds with the known points, in order, and
    then looks at the props only. *)
Lemma boundsEffect_extended (start end_ : option Location.t) (pois : list POI.t) :
  boundsEffect isNaN start end_ pois
  = bounds ← Spec.extended isNaN (Spec.known_points start end_ pois) [];
    mret (if (bool_decide (is_Some start) && bool_decide (is_Some end_))
             || (0 <? length pois)%nat
          then if isValid bounds then [FitBounds bounds (50, 50)%nat] else []
          else match start with
               | Some s => [SetView (Location.lat s, Location.lng s) 13]
               | None => []
               end).
Proof.
  unfold boundsEffect, Spec.known_points.
  destruct start as [s|], end_ as [e|];
    rewrite ?(bool_decide_eq_true_2 (is_Some (Some _))) by eauto;
    rewrite ?(bool_decide_eq_false_2 (is_Some None)) by (by intros [? ?]);
    cbn [fmap option_fmap option_map option_list option_rect app Spec.extended
         mbind completion_bind mret completion_ret];
    unfold extend;
    repeat (lazymatch goal with
            | |- context [isNaN ?lat || isNaN ?lng] =>
                destruct (isNaN lat || isNaN lng)
            end;
            cbn [mbind completion_bind mret completion_ret app]);
    try done;
    rewrite extend_pois_extended;
    lazymatch goal with
    | |- context [Spec.extended isNaN ?pts ?b] =>
        destruct (Spec.extended isNaN pts b) as [?|?]; [|done]
    end;
    cbn [mbind completion_bind mret completion_ret orb andb]; try done.
  by destruct pois.
Qed.

(** X14.  What [MapBoundsController] does with the viewport.  The effect
    first extends the bounds with every known point (start, end and all
    POIs, in this order); a point with a coordinate that is not a number
    makes it throw, outside any [try], before it has asked anything of the
    map.  When all the points are numeric it does not throw: with a POI, or
    with both a start and an end, it fits the map to these bounds with a
    padding of 50; with a start only it centres the map on the start at
    zoom 13; with nothing, or with an end only, it leaves the viewport as
    it is. *)
Theorem viewport_follows_known_points (start end_ : option Location.t)
    (pois : list POI.t) :
  let r := boundsEffect isNaN start end_ pois in
  let points := Spec.known_points start end_ pois in
  (∀ before lat lng after,
     points = before ++ (lat, lng) :: after →
     Forall (Spec.numeric isNaN) before →
     isNaN lat || isNaN lng = true →
     r = Throw (invalid_LatLng lat lng))
  ∧ (Forall (Spec.numeric isNaN) points →
     ∃ actions,
       r = Normal actions
       ∧ (pois = [] → start = None → actions = [])
       ∧ (pois = [] → end_ = None →
          ∀ s, start = Some s →
               actions = [SetView (Location.lat s, Location.lng s) 13])
       ∧ (pois ≠ [] ∨ (is_Some start ∧ is_Some end_) →
          actions = [FitBounds points (50, 50)%nat])).
Proof.
  cbv zeta. rewrite boundsEffect_extended. split.
  - intros before lat lng after -> Hnum Hnan.
    by rewrite extended_not_numeric.
  - intros Hnum. rewrite (extended_numeric _ _ Hnum).
    cbn [app mbind completion_bind mret completion_ret].
    eexists. split; [reflexivity|].
    unfold Spec.known_points.
    destruct start as [s|], end_ as [e|], pois as [|poi pois];
      rewrite ?(bool_decide_eq_true_2 (is_Some (Some _))) by eauto;
      rewrite ?(bool_decide_eq_false_2 (is_Some None)) by (by intros [? ?]);
      cbn;
      (split_and!;
       [ intros; congruence
       | intros ? ? ? [= <-]; congruence
       | intros [?|[[? ?] [? ?]]]; congruence ]).
Qed.

End BoundsProperties.

(** * Further properties of the prompt and of the speech *)

Section PromptProperties.
Context `{JsNumber}.

Lemma toPOI_name_nonempty (el : OsmService.Element) :
  POI.name (OsmService.toPOI el) ≠ "".
Proof.
  destruct (toPOI_derived el) as (-> & _). by apply present_union_nonempty.
Qed.

Lemma getPOIs_names_nonempty (response : completion (option OsmService.OverpassData)) :
  ∃ pois, OsmService.getPOIs response = Normal pois
          ∧ Forall (λ p, POI.name p ≠ "") pois.
Proof.
  eexists. split; [apply getPOIs_result|].
  destruct response as [[d|]|e]; [|done..]. destruct (OsmService.elements d); [|done].
  apply Forall_forall. intros poi [_ Hin]%list_elem_of_filter.
  apply list_elem_of_fmap in Hin as (el & -> & _). apply toPOI_name_nonempty.
Qed.

Lemma poiNames_places (pois : list POI.t) :
  Forall (λ p, POI.name p ≠ "") pois →
  or_default (Some (join ", " (List.map POI.name pois))) "quelques lieux mystérieux"
  = Spec.places pois.
Proof.
  intros Hnames. unfold Spec.places, or_default, join.
  change (List.map POI.name pois) with (POI.name <$> pois).
  destruct (decide (pois = [])) as [->|Hne]; [done|].
  destruct (String.eqb_spec (String.concat ", " (POI.name <$> pois)) "") as [Heq|]; [|done].
  exfalso. revert Heq. apply concat_nonempty.
  - by destruct pois.
  - by apply Forall_fmap.
Qed.

Lemma append_regroup (a b c d e x r : string) :
  a +:+ b +:+ c +:+ d +:+ e +:+ x +:+ r = (a +:+ b +:+ c +:+ d +:+ e) +:+ x +:+ r.
Proof. by rewrite !append_assoc. Qed.

(** X15.  The prompt depends on the POIs only through its places line.
    For the POIs [getPOIs] returned, that line holds their names separated
    by commas, and the words "quelques lieux mystérieux" exactly when the
    list is empty. *)
Theorem prompt_names_the_places (start end_ : Location.t) (config : StoryConfig) :
  ∃ before after,
    ∀ response : completion (option OsmService.OverpassData),
      ∃ pois,
        OsmService.getPOIs response = Normal pois
        ∧ GeminiService.prompt start end_ pois config
          = before +:+ Spec.places pois +:+ after.
Proof.
  eexists _, _. intros response.
  destruct (getPOIs_names_nonempty response) as (pois & Hpois & Hnames).
  exists pois. split; [exact Hpois|].
  unfold GeminiService.prompt. cbv zeta. rewrite (poiNames_places pois Hnames).
  apply append_regroup.
Qed.

End PromptProperties.

Section SpeechProperties.
Context `{JsNumber}.
Variable toLowerCase : string → string.

Lemma getLangCode_prefix (lang : StoryLanguage) :
  default "" (head (split "-" (Sidebar.getLangCode lang))) = Spec.language_prefix lang.
Proof. by destruct lang. Qed.

Lemma existsb_preferred (v : Sidebar.Voice) :
  existsb (λ keyword, includes (toLowerCase (Sidebar.voice_name v)) keyword)
    Sidebar.preferredKeywords = true
  ↔ Spec.preferred toLowerCase v.
Proof.
  rewrite existsb_exists. unfold Spec.preferred.
  by setoid_rewrite list_elem_of_In.
Qed.

(** X16.  [toggleSpeech] stops the speech when it is on, and does nothing
    when there is no story.  Otherwise it speaks the whole story in the
    language of the configuration, with a voice taken from the available
    ones: never a voice of another language, a voice with a preferred
    keyword in its name whenever the language has one, and no voice only
    when the language has none. *)
Theorem toggleSpeech_chooses_a_voice_of_the_language (isSpeaking : bool)
    (story : string) (config : StoryConfig) (voices : list Sidebar.Voice) :
  let r := Sidebar.toggleSpeech toLowerCase isSpeaking story config voices in
  let lang := language config in
  (isSpeaking = true → r = ([Sidebar.Cancel], false))
  ∧ (isSpeaking = false → story = "" → r = ([], false))
  ∧ (isSpeaking = false → story ≠ "" →
     ∃ u,
       r = ([Sidebar.Speak u], true)
       ∧ Sidebar.utterance_text u = story
       ∧ Sidebar.utterance_lang u = Sidebar.getLangCode lang
       ∧ (∀ v, Sidebar.utterance_voice u = Some v → v ∈ voices ∧ Spec.speaks lang v)
       ∧ (Sidebar.utterance_voice u = None ↔ ∀ v, v ∈ voices → ¬ Spec.speaks lang v)
       ∧ (∀ v, v ∈ voices → Spec.speaks lang v → Spec.preferred toLowerCase v →
               ∃ v', Sidebar.utterance_voice u = Some v'
                     ∧ Spec.preferred toLowerCase v')).
Proof.
  cbv zeta. unfold Sidebar.toggleSpeech. split_and!.
  - by intros ->.
  - by intros -> ->.
  - intros -> Hstory.
    assert (truthy (Some story) = true) as ->.
    { unfold truthy. by destruct (String.eqb_spec story ""). }
    cbn [negb]. rewrite getLangCode_prefix.
    set (langVoices := filter _ voices).
    assert (∀ v, v ∈ langVoices ↔ Spec.speaks (language config) v ∧ v ∈ voices) as Hlang.
    { intros v. subst langVoices. by rewrite list_elem_of_filter. }
    eexists. split; [done|]. cbn [Sidebar.utterance_text Sidebar.utterance_lang
                                  Sidebar.utterance_voice].
    split_and!; [done|done| | |].
    + intros v Hv.
      destruct (List.find _ langVoices) as [v'|] eqn:Hfind.
      * injection Hv as ->. apply find_some in Hfind as [Hin _].
        apply list_elem_of_In, Hlang in Hin. tauto.
      * destruct langVoices as [|v' rest] eqn:Hl; [done|]. injection Hv as ->.
        assert (v ∈ v :: rest) as Hin by left. apply Hlang in Hin. tauto.
    + split.
      * intros Hnone v Hv Hspeaks.
        assert (v ∈ langVoices) as Hin by by apply Hlang.
        destruct (List.find _ langVoices); [done|].
        destruct langVoices; [|done]. by apply elem_of_nil in Hin.
      * intros Hnone.
        destruct langVoices as [|v rest] eqn:Hl; [done|]. exfalso.
        assert (v ∈ v :: rest) as Hin by left.
        apply Hlang in Hin as [Hs Hin]. by eapply Hnone.
    + intros v Hv Hspeaks Hpref.
      assert (v ∈ langVoices) as Hin by by apply Hlang.
      destruct (List.find _ langVoices) as [v'|] eqn:Hfind.
      * exists v'. split; [done|]. apply find_some in Hfind as [_ Hk].
        by apply existsb_preferred.
      * exfalso. apply list_elem_of_In in Hin.
        pose proof (find_none _ _ Hfind _ Hin) as Hno. cbn beta in Hno.
        apply existsb_preferred in Hpref. congruence.
Qed.

Lemma startsWith_nil (s : string) : startsWith s "" = true.
Proof. by destruct s. Qed.

Lemma startsWith_refl (s : string) : startsWith s s = true.
Proof.
  induction s as [|c s IH]; [done|]. cbn [startsWith]. by rewrite Ascii.eqb_refl, IH.
Qed.

Lemma includes_nil (s : string) : includes s "" = true.
Proof. destruct s; cbn [includes]; by rewrite startsWith_nil. Qed.

Lemma includes_refl (s : string) : includes s s = true.
Proof. destruct s; cbn [includes]; by rewrite startsWith_refl. Qed.

(** X17.  The list of POIs the sidebar shows is a sublist of the POIs, in
    their order.  It is the whole list when the search text lowers to the
    empty string, and it always holds the POIs whose name is the search
    text. *)
Theorem filteredPois_keeps_matching_pois (pois : list POI.t) (poiSearch : string) :
  sublist (Sidebar.filteredPois toLowerCase pois poiSearch) pois
  ∧ (toLowerCase poiSearch = "" → Sidebar.filteredPois toLowerCase pois poiSearch = pois)
  ∧ (∀ p, p ∈ pois → POI.name p = poiSearch →
          p ∈ Sidebar.filteredPois toLowerCase pois poiSearch).
Proof.
  unfold Sidebar.filteredPois. split_and!.
  - apply sublist_filter.
  - intros ->. apply filter_all, Forall_forall. intros p _. apply includes_nil.
  - intros p Hp <-. apply list_elem_of_filter. split; [apply includes_refl|done].
Qed.

End SpeechProperties.

(** * The further properties on the concrete scenario *)

Section ConcreteFurther.
#[local] Existing Instance IntegerNumber.integers.


(** X8 on two clicks made before the geocoder answers; the second request
    fails. *)
Lemma overlapping_clicks_all_set_the_start_witness :
  let w' :=
    Spec.settle_all Scenario.two_clicks
      (Spec.click_all Scenario.two_clicks (App.mount "")) in
  App.end_ (App.state w') = None
  ∧ App.start (App.state w')
    = Some (Location.mk (Some 45%Z) (Some 4%Z) "Lieu inconnu")
  ∧ App.selectionMode (App.state w') = sel_end.
Proof.
  destruct (overlapping_clicks_all_set_the_start Scenario.two_clicks (App.mount "")
              eq_refl eq_refl) as (_ & He & _ & Hlast).
  destruct (Hlast _ eq_refl) as [Hs Hm].
  split; [exact He|]. split; [exact Hs|exact Hm].
Defined.

(** The loading flag is cleared by the first settlement although the
    request for Lyon is still waiting. *)
Example loading_flag_cleared_early :
  let w :=
    App.run [App.SearchFound sel_end Scenario.paris;
             App.SearchFound sel_end Scenario.lyon;
             App.PoisSettled 0 Scenario.paris_answer] (App.mount "") in
  App.isLoadingPois (App.state w) = false ∧ App.pendingPois w = [Scenario.lyon].
Proof. split; reflexivity. Qed.

(** X14 on the start the address [?start=abc] yields: both coordinates
    are [NaN] and the effect throws. *)
Example bounds_of_a_malformed_link :
  let s := App.state (App.mount "?start=abc") in
  MapComponent.boundsEffect IntegerNumber.isNaN (App.start s) (App.end_ s) (App.pois s)
  = Throw (MkError "Invalid LatLng object: (NaN, NaN)").
Proof. reflexivity. Qed.

(** X14 on a start and an end. *)
Example bounds_of_a_trip :
  MapComponent.boundsEffect IntegerNumber.isNaN (Some Scenario.paris)
    (Some Scenario.nice) []
  = Normal [MapComponent.FitBounds
              [(Some 48%Z, Some 2%Z); (Some 43%Z, Some 7%Z)] (50, 50)%nat].
Proof. reflexivity. Qed.

End ConcreteFurther.
